(** * prism-mcp: the native reference graph (src/graph/native/graph.{h,cc})

    A shallow embedding of [prism::ReferenceGraph] and the proofs of its
    specification.  The five [std::unordered_map]s and the
    [std::unordered_set] of the class are finite maps and a finite set over
    strings; every [std::vector] is a list; each method of the class is a
    function from the graph before the call to the graph after it (and to the
    returned value for the [const] methods). *)

From Stdlib Require Import ZArith NArith.
From stdpp Require Import gmap strings list fin_maps.

Local Open Scope string_scope.
Local Open Scope list_scope.

(** ** The records of graph.h *)

Module Symbol.
Record t : Type := mk {
  id : string;
  name : string;
  type : string;
  filePath : string;
  line : Z;
  column : Z;
  className : string;
  isExported : bool;
  isStatic : bool
}.

(** [Symbol()]: the strings are empty, the default member initialisers give
    [0] and [false]. *)
Definition empty : t := mk "" "" "" "" 0 0 "" false false.
End Symbol.

#[global] Instance Symbol_eq_dec : EqDecision Symbol.t.
Proof. solve_decision. Defined.

Module Reference.
Record t : Type := mk {
  id : string;
  fromSymbolId : string;
  toSymbolId : string;
  type : string;
  filePath : string;
  line : Z;
  column : Z
}.
End Reference.

#[global] Instance Reference_eq_dec : EqDecision Reference.t.
Proof. solve_decision. Defined.

Module ImportEntry.
Record t : Type := mk {
  source : string;
  imported : list string;
  isTypeOnly : bool
}.
End ImportEntry.

Module FileData.
Record t : Type := mk {
  path : string;
  symbols : list Symbol.t;
  imports : list ImportEntry.t
}.
End FileData.

Module GraphStats.
Record t : Type := mk {
  totalSymbols : N;
  totalReferences : N;
  totalFiles : N;
  memoryUsageBytes : N
}.
End GraphStats.

(** [sizeof(Symbol)], [sizeof(Reference)] and [sizeof(FileData)] are fixed by
    the platform's ABI, not by the sources; [calculateMemoryUsage] takes them
    as a parameter. *)
Record Sizeof : Type := {
  sizeof_Symbol : N;
  sizeof_Reference : N;
  sizeof_FileData : N
}.

(** [size_t] arithmetic wraps at 64 bits. *)
Definition size_t_wrap (n : N) : N := (n mod 2 ^ 64)%N.

(** ** The class ReferenceGraph *)

Module ReferenceGraph.

Record t : Type := mk {
  symbols_ : gmap string Symbol.t;
  references_ : gmap string Reference.t;
  symbolToReferences_ : gmap string (list string);
  symbolToCallers_ : gmap string (list string);
  files_ : gmap string FileData.t;
  dirtyFiles_ : gset string
}.

(** The freshly constructed graph: every container is empty. *)
Definition init : t := mk ∅ ∅ ∅ ∅ ∅ ∅.

Definition set_symbols (g : t) (m : gmap string Symbol.t) : t :=
  mk m (references_ g) (symbolToReferences_ g) (symbolToCallers_ g)
     (files_ g) (dirtyFiles_ g).

Definition set_references (g : t) (m : gmap string Reference.t) : t :=
  mk (symbols_ g) m (symbolToReferences_ g) (symbolToCallers_ g)
     (files_ g) (dirtyFiles_ g).

Definition set_symbolToReferences (g : t) (m : gmap string (list string)) : t :=
  mk (symbols_ g) (references_ g) m (symbolToCallers_ g)
     (files_ g) (dirtyFiles_ g).

Definition set_symbolToCallers (g : t) (m : gmap string (list string)) : t :=
  mk (symbols_ g) (references_ g) (symbolToReferences_ g) m
     (files_ g) (dirtyFiles_ g).

Definition set_files (g : t) (m : gmap string FileData.t) : t :=
  mk (symbols_ g) (references_ g) (symbolToReferences_ g)
     (symbolToCallers_ g) m (dirtyFiles_ g).

Definition set_dirtyFiles (g : t) (s : gset string) : t :=
  mk (symbols_ g) (references_ g) (symbolToReferences_ g)
     (symbolToCallers_ g) (files_ g) s.

(** [m[k]] of an [unordered_map<string, vector<string>>] read as a value: the
    vector stored under [k], the empty vector when [operator[]] has to create
    the entry. *)
Definition at_key (m : gmap string (list string)) (k : string) : list string :=
  default [] (m !! k).

(** [m[k].push_back(x)] *)
Definition push_back_at (m : gmap string (list string)) (k x : string)
  : gmap string (list string) :=
  <[k := at_key m k ++ [x]]> m.

(** [auto& v = m[k]; v.erase(std::remove(v.begin(), v.end(), x), v.end());]:
    every occurrence of [x] leaves the vector; an absent entry is created
    empty by [operator[]]. *)
Definition erase_remove_at (m : gmap string (list string)) (k x : string)
  : gmap string (list string) :=
  <[k := filter (λ y, y ≠ x) (at_key m k)]> m.

(** *** Symbol management *)

Definition addSymbol (g : t) (symbol : Symbol.t) : t :=
  set_symbols g (<[Symbol.id symbol := symbol]> (symbols_ g)).

Definition addSymbols (g : t) (symbols : list Symbol.t) : t :=
  foldl addSymbol g symbols.

Definition hasSymbol (g : t) (symbolId : string) : bool :=
  bool_decide (is_Some (symbols_ g !! symbolId)).

Definition getSymbol (g : t) (symbolId : string) : Symbol.t :=
  match symbols_ g !! symbolId with
  | Some s => s
  | None => Symbol.empty
  end.

(** The iteration order of an [unordered_map] is unspecified; the model
    enumerates the table in the order of [map_to_list].  The loop pushes
    [pair.second] of every entry. *)
Definition getAllSymbols (g : t) : list Symbol.t :=
  foldl (λ result pair, result ++ [pair.2]) [] (map_to_list (symbols_ g)).

(** *** Reference management *)

Definition addReference (g : t) (reference : Reference.t) : t :=
  let g1 := set_references g
              (<[Reference.id reference := reference]> (references_ g)) in
  let g2 := set_symbolToReferences g1
              (push_back_at (symbolToReferences_ g1)
                 (Reference.fromSymbolId reference) (Reference.id reference)) in
  set_symbolToCallers g2
    (push_back_at (symbolToCallers_ g2)
       (Reference.toSymbolId reference) (Reference.id reference)).

Definition addReferences (g : t) (references : list Reference.t) : t :=
  foldl addReference g references.

(** The body of the [for] loop of [removeReferences]. *)
Definition removeReferences_body (g : t) (refId : string) : t :=
  match references_ g !! refId with
  | Some r =>
      let g1 := set_symbolToCallers g
                  (erase_remove_at (symbolToCallers_ g)
                     (Reference.toSymbolId r) refId) in
      set_references g1 (delete refId (references_ g1))
  | None => g
  end.

Definition removeReferences (g : t) (symbolId : string) : t :=
  match symbolToReferences_ g !! symbolId with
  | Some refIds =>
      let g1 := foldl removeReferences_body g refIds in
      set_symbolToReferences g1 (delete symbolId (symbolToReferences_ g1))
  | None => g
  end.

(** The loop shared by [findCallers] and [findCallees]: resolve each id and
    push the references found. *)
Definition resolve_body (g : t) (result : list Reference.t) (refId : string)
  : list Reference.t :=
  match references_ g !! refId with
  | Some r => result ++ [r]
  | None => result
  end.

Definition findCallers (g : t) (symbolId : string) : list Reference.t :=
  match symbolToCallers_ g !! symbolId with
  | Some refIds => foldl (resolve_body g) [] refIds
  | None => []
  end.

Definition findCallees (g : t) (symbolId : string) : list Reference.t :=
  match symbolToReferences_ g !! symbolId with
  | Some refIds => foldl (resolve_body g) [] refIds
  | None => []
  end.

(** *** File management *)

Definition addFile (g : t) (file : FileData.t) : t :=
  addSymbols (set_files g (<[FileData.path file := file]> (files_ g)))
             (FileData.symbols file).

(** The body of the inner [for] loop of [removeFile] (references to the
    symbol). *)
Definition removeFile_callers_body (g : t) (refId : string) : t :=
  match references_ g !! refId with
  | Some r =>
      let g1 := set_symbolToReferences g
                  (erase_remove_at (symbolToReferences_ g)
                     (Reference.fromSymbolId r) refId) in
      set_references g1 (delete refId (references_ g1))
  | None => g
  end.

(** The body of the outer [for] loop of [removeFile]. *)
Definition removeFile_body (g : t) (sym : Symbol.t) : t :=
  let g1 := removeReferences g (Symbol.id sym) in
  let g2 := set_symbols g1 (delete (Symbol.id sym) (symbols_ g1)) in
  match symbolToCallers_ g2 !! Symbol.id sym with
  | Some refIds =>
      let g3 := foldl removeFile_callers_body g2 refIds in
      set_symbolToCallers g3 (delete (Symbol.id sym) (symbolToCallers_ g3))
  | None => g2
  end.

Definition removeFile (g : t) (filePath : string) : t :=
  match files_ g !! filePath with
  | Some file =>
      let g1 := foldl removeFile_body g (FileData.symbols file) in
      set_files g1 (delete filePath (files_ g1))
  | None => g
  end.

Definition updateFile (g : t) (filePath : string) (file : FileData.t) : t :=
  addFile (removeFile g filePath) file.

Definition markFileDirty (g : t) (filePath : string) : t :=
  set_dirtyFiles g ({[filePath]} ∪ dirtyFiles_ g).

Definition clearDirtyFiles (g : t) : t := set_dirtyFiles g ∅.

Definition hasFile (g : t) (filePath : string) : bool :=
  bool_decide (is_Some (files_ g !! filePath)).

(** *** Query operations *)

Definition isSymbolUsed (g : t) (symbolId : string) : bool :=
  match symbolToCallers_ g !! symbolId with
  | Some refIds => negb (bool_decide (refIds = []))
  | None => false
  end.

Definition findUnusedSymbols (g : t) : list Symbol.t :=
  foldl (λ unused pair,
           if negb (isSymbolUsed g pair.1) then unused ++ [pair.2] else unused)
        [] (map_to_list (symbols_ g)).

Definition findSymbolsByName (g : t) (name : string) : list Symbol.t :=
  foldl (λ result pair,
           if bool_decide (Symbol.name pair.2 = name)
           then result ++ [pair.2] else result)
        [] (map_to_list (symbols_ g)).

Definition findSymbolsByFile (g : t) (filePath : string) : list Symbol.t :=
  match files_ g !! filePath with
  | Some file => FileData.symbols file
  | None => []
  end.

Definition findExportedSymbols (g : t) : list Symbol.t :=
  foldl (λ result pair,
           if Symbol.isExported pair.2 then result ++ [pair.2] else result)
        [] (map_to_list (symbols_ g)).

(** *** Statistics *)

Definition container_size {A} (m : gmap string A) : N := N.of_nat (size m).

Definition calculateMemoryUsage (sz : Sizeof) (g : t) : N :=
  let size0 := 0%N in
  let size1 :=
    size_t_wrap (size0 + size_t_wrap (container_size (symbols_ g) * sizeof_Symbol sz)) in
  let size2 :=
    size_t_wrap (size1 + size_t_wrap (container_size (references_ g) * sizeof_Reference sz)) in
  size_t_wrap (size2 + size_t_wrap (container_size (files_ g) * sizeof_FileData sz)).

Definition getStats (sz : Sizeof) (g : t) : GraphStats.t :=
  GraphStats.mk (container_size (symbols_ g))
                (container_size (references_ g))
                (container_size (files_ g))
                (calculateMemoryUsage sz g).

Definition size (g : t) : N := container_size (symbols_ g).

Definition clear (g : t) : t := mk ∅ ∅ ∅ ∅ ∅ ∅.

End ReferenceGraph.

Import ReferenceGraph.

(** ** Reachable states

    The mutating public methods, as the operations of a labelled transition
    system over graphs.  A state is reachable when some sequence of calls
    leads to it from the freshly constructed graph. *)

Inductive Op : Type :=
| OpAddSymbol (symbol : Symbol.t)
| OpAddSymbols (symbols : list Symbol.t)
| OpAddReference (reference : Reference.t)
| OpAddReferences (references : list Reference.t)
| OpRemoveReferences (symbolId : string)
| OpAddFile (file : FileData.t)
| OpUpdateFile (filePath : string) (file : FileData.t)
| OpRemoveFile (filePath : string)
| OpMarkFileDirty (filePath : string)
| OpClearDirtyFiles
| OpClear.

Definition step (g : t) (op : Op) : t :=
  match op with
  | OpAddSymbol s => addSymbol g s
  | OpAddSymbols l => addSymbols g l
  | OpAddReference r => addReference g r
  | OpAddReferences l => addReferences g l
  | OpRemoveReferences s => removeReferences g s
  | OpAddFile f => addFile g f
  | OpUpdateFile p f => updateFile g p f
  | OpRemoveFile p => removeFile g p
  | OpMarkFileDirty p => markFileDirty g p
  | OpClearDirtyFiles => clearDirtyFiles g
  | OpClear => clear g
  end.

Definition run (g : t) (ops : list Op) : t := foldl step g ops.

Definition reachable (g : t) : Prop := ∃ ops, g = run init ops.

(** A call sequence re-uses no live reference id when every reference handed
    to [addReference] (directly or through a batch) carries an id that is not
    a key of the reference table at the moment of that call. *)
Fixpoint fresh_references (g : t) (references : list Reference.t) : bool :=
  match references with
  | [] => true
  | r :: rest =>
      bool_decide (references_ g !! Reference.id r = None)
      && fresh_references (addReference g r) rest
  end.

Definition fresh_op (g : t) (op : Op) : bool :=
  match op with
  | OpAddReference r => fresh_references g [r]
  | OpAddReferences l => fresh_references g l
  | _ => true
  end.

Fixpoint fresh_trace (g : t) (ops : list Op) : bool :=
  match ops with
  | [] => true
  | op :: rest => fresh_op g op && fresh_trace (step g op) rest
  end.

Definition reachable_fresh (g : t) : Prop :=
  ∃ ops, fresh_trace init ops = true ∧ g = run init ops.

(** The weaker discipline: an id that is a key of the reference table may be
    added again, provided the new reference has the endpoints of the stored
    one. *)
Definition endpoints_kept (g : t) (r : Reference.t) : bool :=
  match references_ g !! Reference.id r with
  | Some r' =>
      bool_decide (Reference.fromSymbolId r' = Reference.fromSymbolId r
                   ∧ Reference.toSymbolId r' = Reference.toSymbolId r)
  | None => true
  end.

Fixpoint stable_references (g : t) (references : list Reference.t) : bool :=
  match references with
  | [] => true
  | r :: rest => endpoints_kept g r && stable_references (addReference g r) rest
  end.

Definition stable_op (g : t) (op : Op) : bool :=
  match op with
  | OpAddReference r => stable_references g [r]
  | OpAddReferences l => stable_references g l
  | _ => true
  end.

Fixpoint stable_trace (g : t) (ops : list Op) : bool :=
  match ops with
  | [] => true
  | op :: rest => stable_op g op && stable_trace (step g op) rest
  end.

Definition reachable_stable (g : t) : Prop :=
  ∃ ops, stable_trace init ops = true ∧ g = run init ops.

(** Removal operations, for phrasing "added and not removed since". *)
Definition is_removal (op : Op) : bool :=
  match op with
  | OpRemoveReferences _ | OpRemoveFile _ | OpUpdateFile _ _ | OpClear => true
  | _ => false
  end.

(** Number of positions of the vector [l] holding [x]. *)
Definition occurrences (x : string) (l : list string) : nat :=
  length (filter (λ y, y = x) l).

(** ** Invariants

    Stated over a reference table [R] and two adjacency indices, so that the
    two mirror-image loops of the code (outgoing lists pruned through
    [toSymbolId], incoming lists pruned through [fromSymbolId]) share their
    proofs: [e1]/[A1] is the index being walked, [e2]/[A2] the opposite one. *)

Abbreviation endpoint := (Reference.t → string).
Abbreviation reftable := (gmap string Reference.t).
Abbreviation adjacency := (gmap string (list string)).

(** Every stored reference is stored under its own id and is listed under
    both of its endpoints. *)
Definition mirrored_gen (e1 : endpoint) (A1 : adjacency)
    (e2 : endpoint) (A2 : adjacency) (R : reftable) : Prop :=
  ∀ k r, R !! k = Some r →
    Reference.id r = k ∧ k ∈ at_key A1 (e1 r) ∧ k ∈ at_key A2 (e2 r).

(** Every adjacency entry names a stored reference with that endpoint. *)
Definition backed (e : endpoint) (A : adjacency) (R : reftable) : Prop :=
  ∀ s k, k ∈ at_key A s → ∃ r, R !! k = Some r ∧ e r = s.

Definition duplicate_free (A : adjacency) : Prop :=
  ∀ s, NoDup (at_key A s).

Definition consistent_gen (e1 : endpoint) (A1 : adjacency)
    (e2 : endpoint) (A2 : adjacency) (R : reftable) : Prop :=
  mirrored_gen e1 A1 e2 A2 R ∧ backed e1 A1 R ∧ backed e2 A2 R.

Definition exact_gen (e1 : endpoint) (A1 : adjacency)
    (e2 : endpoint) (A2 : adjacency) (R : reftable) : Prop :=
  consistent_gen e1 A1 e2 A2 R ∧ duplicate_free A1 ∧ duplicate_free A2.

Definition mirrored (g : t) : Prop :=
  mirrored_gen Reference.fromSymbolId (symbolToReferences_ g)
               Reference.toSymbolId (symbolToCallers_ g) (references_ g).

Definition consistent (g : t) : Prop :=
  consistent_gen Reference.fromSymbolId (symbolToReferences_ g)
                 Reference.toSymbolId (symbolToCallers_ g) (references_ g).

Definition exact (g : t) : Prop :=
  exact_gen Reference.fromSymbolId (symbolToReferences_ g)
            Reference.toSymbolId (symbolToCallers_ g) (references_ g).

Definition keyed_symbols (g : t) : Prop :=
  ∀ k s, symbols_ g !! k = Some s → Symbol.id s = k.

(** The two pruning loops on the pair (reference table, opposite index). *)
Definition prune_body (e : endpoint) (acc : reftable * adjacency)
    (refId : string) : reftable * adjacency :=
  match acc.1 !! refId with
  | Some r => (delete refId acc.1, erase_remove_at acc.2 (e r) refId)
  | None => acc
  end.

Definition prune (e : endpoint) (R : reftable) (A : adjacency)
    (refIds : list string) : reftable * adjacency :=
  foldl (prune_body e) (R, A) refIds.

(** ** Sample data (the scenario of the specification) *)

Definition ex_foo : Symbol.t :=
  Symbol.mk "f1::foo::1" "foo" "function" "f1" 1 0 "" true false.

Definition ex_bar : Symbol.t :=
  Symbol.mk "f1::bar::5" "bar" "function" "f1" 5 0 "" false false.

Definition ex_r1 : Reference.t :=
  Reference.mk "r1" "f1::bar::5" "f1::foo::1" "direct" "f1" 6 2.

(** The same id [r1], now from [baz] to [bar]. *)
Definition ex_r1_moved : Reference.t :=
  Reference.mk "r1" "f2::baz::3" "f1::bar::5" "direct" "f2" 4 2.

Definition ex_file : FileData.t := FileData.mk "f1" [ex_foo; ex_bar] [].

Definition ex_graph : t :=
  run init [OpAddFile ex_file; OpAddReference ex_r1].

Definition ex_twice : t :=
  run init [OpAddReference ex_r1; OpAddReference ex_r1].

Definition ex_moved : t :=
  run init [OpAddReference ex_r1; OpAddReference ex_r1_moved].

(** A second file, whose only symbol calls itself, and a record for the
    path [f1] that lists [foo] alone. *)
Definition ex_baz : Symbol.t :=
  Symbol.mk "f2::baz::3" "baz" "function" "f2" 3 0 "" false false.

Definition ex_r2 : Reference.t :=
  Reference.mk "r2" "f2::baz::3" "f2::baz::3" "direct" "f2" 4 2.

Definition ex_file2 : FileData.t := FileData.mk "f2" [ex_baz] [].

Definition ex_file_small : FileData.t := FileData.mk "f1" [ex_foo] [].

Definition ex_two_files : t :=
  run init [OpAddFile ex_file; OpAddFile ex_file2;
            OpAddReference ex_r1; OpAddReference ex_r2].

(** ** Which containers an operation may write *)

Definition touches_symbols (op : Op) : bool :=
  match op with
  | OpAddSymbol _ | OpAddSymbols _ | OpAddFile _ | OpUpdateFile _ _
  | OpRemoveFile _ | OpClear => true
  | _ => false
  end.

Definition touches_references (op : Op) : bool :=
  match op with
  | OpAddReference _ | OpAddReferences _ | OpRemoveReferences _
  | OpUpdateFile _ _ | OpRemoveFile _ | OpClear => true
  | _ => false
  end.

Definition touches_files (op : Op) : bool :=
  match op with
  | OpAddFile _ | OpUpdateFile _ _ | OpRemoveFile _ | OpClear => true
  | _ => false
  end.

Definition touches_dirtyFiles (op : Op) : bool :=
  match op with
  | OpMarkFileDirty _ | OpClearDirtyFiles | OpClear => true
  | _ => false
  end.

(** ** Lemmas on vectors and adjacency entries *)

Lemma at_key_insert (m : adjacency) k l s :
  at_key (<[k := l]> m) s = if decide (k = s) then l else at_key m s.
Proof. unfold at_key. rewrite lookup_insert. by case_decide. Qed.

Lemma at_key_delete (m : adjacency) k s :
  at_key (delete k m) s = if decide (k = s) then [] else at_key m s.
Proof. unfold at_key. rewrite lookup_delete. by case_decide. Qed.

Lemma at_key_Some (m : adjacency) k l : m !! k = Some l → at_key m k = l.
Proof. unfold at_key. by intros ->. Qed.

Lemma at_key_None (m : adjacency) k : m !! k = None → at_key m k = [].
Proof. unfold at_key. by intros ->. Qed.

Lemma at_key_push_back (m : adjacency) k x s :
  at_key (push_back_at m k x) s
  = if decide (k = s) then at_key m s ++ [x] else at_key m s.
Proof. unfold push_back_at. rewrite at_key_insert. by case_decide; subst. Qed.

Lemma at_key_erase_remove (m : adjacency) k x s :
  at_key (erase_remove_at m k x) s
  = if decide (k = s) then filter (λ y, y ≠ x) (at_key m s) else at_key m s.
Proof. unfold erase_remove_at. rewrite at_key_insert. by case_decide; subst. Qed.

Lemma occurrences_app x l1 l2 :
  occurrences x (l1 ++ l2) = occurrences x l1 + occurrences x l2.
Proof. unfold occurrences. by rewrite filter_app, length_app. Qed.

Lemma occurrences_elem_of x l : x ∈ l ↔ (1 ≤ occurrences x l)%nat.
Proof.
  unfold occurrences. induction l as [|y l IH].
  - simpl. split; [by intros ?%elem_of_nil | lia].
  - rewrite elem_of_cons, filter_cons. case_decide; simpl.
    + split; [lia | auto].
    + rewrite IH. split; [intros [?|?]; [congruence | done] | auto].
Qed.

Lemma occurrences_not_elem_of x l : x ∉ l → occurrences x l = 0.
Proof.
  intros Hx. destruct (occurrences x l) as [|n] eqn:E; [done|].
  exfalso. apply Hx, occurrences_elem_of. lia.
Qed.

Lemma occurrences_NoDup x l : NoDup l → x ∈ l → occurrences x l = 1.
Proof.
  induction 1 as [|y l Hy Hl IH]; [by intros ?%elem_of_nil|].
  change (y :: l) with ([y] ++ l). rewrite occurrences_app.
  rewrite elem_of_app, list_elem_of_singleton. intros [->|Hx].
  - rewrite (occurrences_not_elem_of y l Hy).
    unfold occurrences. rewrite filter_cons_True; done.
  - rewrite (IH Hx). unfold occurrences.
    rewrite filter_cons_False; [done|]. intros ->. done.
Qed.

(** ** The pruning loop *)

Section Prune.
Variable e : endpoint.

Lemma prune_cons R A a ids :
  prune e R A (a :: ids)
  = match R !! a with
    | Some r => prune e (delete a R) (erase_remove_at A (e r) a) ids
    | None => prune e R A ids
    end.
Proof. unfold prune. simpl. unfold prune_body at 2. simpl. by destruct (R !! a). Qed.

(** The loop deletes exactly the listed ids from the table. *)
Lemma prune_refs R A ids k :
  (prune e R A ids).1 !! k = if decide (k ∈ ids) then None else R !! k.
Proof.
  revert R A. induction ids as [|a ids IH]; intros R A.
  - by rewrite decide_False by apply not_elem_of_nil.
  - rewrite prune_cons. destruct (R !! a) as [r|] eqn:Ha; rewrite IH.
    + destruct (decide (k = a)) as [->|Hne].
      * rewrite lookup_delete_eq. rewrite (decide_True (P := a ∈ a :: ids)) by left.
        by case_decide.
      * rewrite lookup_delete_ne by done.
        destruct (decide (k ∈ ids)) as [Hin|Hnin].
        -- by rewrite decide_True by by right.
        -- rewrite decide_False; [done|]. by intros [?|?]%elem_of_cons.
    + destruct (decide (k ∈ ids)) as [Hin|Hnin].
      * by rewrite decide_True by by right.
      * destruct (decide (k = a)) as [->|Hne].
        -- by rewrite decide_True by left.
        -- rewrite decide_False; [done|]. by intros [?|?]%elem_of_cons.
Qed.

(** Each opposite list loses the listed ids whose reference pointed to it. *)
Lemma prune_adj R A ids s :
  at_key (prune e R A ids).2 s
  = filter (λ k, ¬ (k ∈ ids ∧ e <$> R !! k = Some s)) (at_key A s).
Proof.
  revert R A. induction ids as [|a ids IH]; intros R A.
  - simpl. symmetry.
    induction (at_key A s) as [|x l IHl]; [done|].
    rewrite filter_cons_True; [by f_equal|]. by intros [?%elem_of_nil _].
  - rewrite prune_cons. destruct (R !! a) as [r|] eqn:Ha; rewrite IH.
    + rewrite at_key_erase_remove. case_decide as Hs.
      * rewrite list_filter_filter. apply list_filter_iff. intros x. split.
        -- intros [Hx Hxa] [[->|Hin]%elem_of_cons Hr]; [done|].
           apply Hx. split; [done|]. by rewrite lookup_delete_ne.
        -- intros Hx. split.
           ++ intros [Hin Hr]. apply Hx. split; [by right|].
              destruct (decide (x = a)) as [->|Hne].
              ** by rewrite lookup_delete_eq in Hr.
              ** by rewrite lookup_delete_ne in Hr.
           ++ intros ->. apply Hx. split; [by left|]. rewrite Ha. simpl. by f_equal.
      * apply list_filter_iff. intros x. split.
        -- intros Hx [[->|Hin]%elem_of_cons Hr].
           ++ rewrite Ha in Hr. simpl in Hr. congruence.
           ++ apply Hx. split; [done|].
              destruct (decide (x = a)) as [->|Hne].
              ** rewrite Ha in Hr. simpl in Hr. congruence.
              ** by rewrite lookup_delete_ne.
        -- intros Hx [Hin Hr]. apply Hx. split; [by right|].
           destruct (decide (x = a)) as [->|Hne].
           ++ by rewrite lookup_delete_eq in Hr.
           ++ by rewrite lookup_delete_ne in Hr.
    + apply list_filter_iff. intros x. split.
      * intros Hx [[->|Hin]%elem_of_cons Hr].
        -- by rewrite Ha in Hr.
        -- by apply Hx.
      * intros Hx [Hin Hr]. apply Hx. split; [by right | done].
Qed.

Lemma prune_refs_Some R A ids k r :
  (prune e R A ids).1 !! k = Some r ↔ (k ∉ ids) ∧ R !! k = Some r.
Proof.
  rewrite prune_refs. case_decide; split; try done.
  - by intros [? _].
  - by intros [_ ?].
Qed.

Lemma prune_adj_elem_of R A ids s k :
  k ∈ at_key (prune e R A ids).2 s
  ↔ k ∈ at_key A s ∧ ¬ (k ∈ ids ∧ e <$> R !! k = Some s).
Proof. rewrite prune_adj, list_elem_of_filter. tauto. Qed.

End Prune.

(** ** Preservation of the invariants by the pruning loop *)

Lemma mirrored_gen_swap e1 A1 e2 A2 R :
  mirrored_gen e1 A1 e2 A2 R → mirrored_gen e2 A2 e1 A1 R.
Proof. intros H k r Hk. destruct (H k r Hk) as (? & ? & ?). done. Qed.

Lemma consistent_gen_swap e1 A1 e2 A2 R :
  consistent_gen e1 A1 e2 A2 R → consistent_gen e2 A2 e1 A1 R.
Proof. intros (Hm%mirrored_gen_swap & ? & ?). by split. Qed.

Lemma exact_gen_swap e1 A1 e2 A2 R :
  exact_gen e1 A1 e2 A2 R → exact_gen e2 A2 e1 A1 R.
Proof. intros (Hc%consistent_gen_swap & ? & ?). by split. Qed.

Section Purge.
Variables (e1 e2 : endpoint) (A1 A2 : adjacency) (R : reftable) (s : string).

Local Abbreviation p := (prune e2 R A2 (at_key A1 s)).

(** Walking the list of [s] removes every reference whose [e1]-endpoint is
    [s], and nothing that was stored survives changed. *)
Lemma purge_survivors k r :
  mirrored_gen e1 A1 e2 A2 R →
  p.1 !! k = Some r → R !! k = Some r ∧ e1 r ≠ s.
Proof.
  intros Hm [Hk Hr]%prune_refs_Some. split; [done|].
  intros <-. apply Hk. by destruct (Hm k r Hr) as (_ & ? & _).
Qed.

Lemma purge_keeps k r :
  backed e1 A1 R → R !! k = Some r → e1 r ≠ s → p.1 !! k = Some r.
Proof.
  intros Hb Hr Hne. apply prune_refs_Some. split; [|done].
  intros Hin. destruct (Hb s k Hin) as (r' & Hr' & <-). congruence.
Qed.

Lemma purge_mirrored :
  mirrored_gen e1 A1 e2 A2 R → mirrored_gen e1 (delete s A1) e2 p.2 p.1.
Proof.
  intros Hm k r Hk. destruct (purge_survivors k r Hm Hk) as [Hr Hne].
  apply prune_refs_Some in Hk as [Hk _].
  destruct (Hm k r Hr) as (Hid & H1 & H2). split; [done|]. split.
  - rewrite at_key_delete. by rewrite decide_False by done.
  - apply prune_adj_elem_of. split; [done|]. by intros [? _].
Qed.

Lemma purge_consistent :
  consistent_gen e1 A1 e2 A2 R → consistent_gen e1 (delete s A1) e2 p.2 p.1.
Proof.
  intros (Hm & Hb1 & Hb2). split; [by apply purge_mirrored|]. split.
  - intros s' k. rewrite at_key_delete. case_decide as Hs; [by intros ?%elem_of_nil|].
    intros Hin. destruct (Hb1 s' k Hin) as (r & Hr & He). exists r. split; [|done].
    apply purge_keeps; [done | done | congruence].
  - intros s' k [Hin Hnot]%prune_adj_elem_of.
    destruct (Hb2 s' k Hin) as (r & Hr & He). exists r. split; [|done].
    apply prune_refs_Some. split; [|done].
    intros Hk. apply Hnot. split; [done|]. rewrite Hr. simpl. by f_equal.
Qed.

Lemma purge_exact :
  exact_gen e1 A1 e2 A2 R → exact_gen e1 (delete s A1) e2 p.2 p.1.
Proof.
  intros (Hc & Hd1 & Hd2). split; [by apply purge_consistent|]. split.
  - intros s'. rewrite at_key_delete. case_decide; [constructor | apply Hd1].
  - intros s'. rewrite prune_adj. apply NoDup_filter, Hd2.
Qed.

End Purge.

(** ** The methods in terms of the pruning loop *)

Lemma foldl_removeReferences_body g ids :
  foldl removeReferences_body g ids
  = let p := prune Reference.toSymbolId (references_ g) (symbolToCallers_ g) ids in
    mk (symbols_ g) p.1 (symbolToReferences_ g) p.2 (files_ g) (dirtyFiles_ g).
Proof.
  revert g. induction ids as [|a ids IH]; intros g; [by destruct g|].
  simpl foldl. rewrite IH. cbv zeta. rewrite prune_cons.
  unfold removeReferences_body. by destruct (references_ g !! a).
Qed.

Lemma foldl_removeFile_callers_body g ids :
  foldl removeFile_callers_body g ids
  = let p := prune Reference.fromSymbolId (references_ g) (symbolToReferences_ g) ids in
    mk (symbols_ g) p.1 p.2 (symbolToCallers_ g) (files_ g) (dirtyFiles_ g).
Proof.
  revert g. induction ids as [|a ids IH]; intros g; [by destruct g|].
  simpl foldl. rewrite IH. cbv zeta. rewrite prune_cons.
  unfold removeFile_callers_body. by destruct (references_ g !! a).
Qed.

Lemma removeReferences_unfold g s :
  removeReferences g s
  = let p := prune Reference.toSymbolId (references_ g) (symbolToCallers_ g)
                   (at_key (symbolToReferences_ g) s) in
    mk (symbols_ g) p.1 (delete s (symbolToReferences_ g)) p.2
       (files_ g) (dirtyFiles_ g).
Proof.
  unfold removeReferences, at_key.
  destruct (symbolToReferences_ g !! s) as [ids|] eqn:E; simpl.
  - by rewrite foldl_removeReferences_body.
  - rewrite delete_id by done. by destruct g.
Qed.

(** The second half of the body of [removeFile]'s outer loop, from the state
    [g] left by [removeReferences] and the erasure from the symbol table. *)
Lemma removeFile_body_unfold g sym :
  removeFile_body g sym
  = let g1 := removeReferences g (Symbol.id sym) in
    let q := prune Reference.fromSymbolId (references_ g1) (symbolToReferences_ g1)
                   (at_key (symbolToCallers_ g1) (Symbol.id sym)) in
    mk (delete (Symbol.id sym) (symbols_ g)) q.1 q.2
       (delete (Symbol.id sym) (symbolToCallers_ g1))
       (files_ g) (dirtyFiles_ g).
Proof.
  unfold removeFile_body. cbv zeta. rewrite removeReferences_unfold. cbv zeta.
  simpl. unfold at_key.
  destruct (_ !! Symbol.id sym) as [ids|] eqn:E; simpl.
  - by rewrite foldl_removeFile_callers_body.
  - unfold set_symbols. simpl. by rewrite (delete_id _ _ E).
Qed.

Lemma addSymbols_unfold g l :
  addSymbols g l
  = set_symbols g (foldl (λ m s, <[Symbol.id s := s]> m) (symbols_ g) l).
Proof.
  unfold addSymbols. revert g. induction l as [|a l IH]; intros g; [by destruct g|].
  simpl. by rewrite IH.
Qed.

Lemma removeFile_files_Some g path f :
  files_ g !! path = Some f →
  removeFile g path
  = let g1 := foldl removeFile_body g (FileData.symbols f) in
    set_files g1 (delete path (files_ g1)).
Proof. unfold removeFile. by intros ->. Qed.

(** ** Every method preserves the invariants *)

Lemma mirrored_init : mirrored init.
Proof.
  intros k r Hk. change (references_ init) with (∅ : reftable) in Hk.
  by apply lookup_empty_Some in Hk.
Qed.

Lemma consistent_init : consistent init.
Proof.
  split; [apply mirrored_init|].
  split; intros s k Hk; by apply elem_of_nil in Hk.
Qed.

Lemma exact_init : exact init.
Proof. split; [apply consistent_init|]. split; intros s; constructor. Qed.

Lemma keyed_symbols_init : keyed_symbols init.
Proof.
  intros k s Hk. change (symbols_ init) with (∅ : gmap string Symbol.t) in Hk.
  by apply lookup_empty_Some in Hk.
Qed.

Lemma addReference_mirrored g r : mirrored g → mirrored (addReference g r).
Proof.
  intros Hm k r'. unfold addReference. simpl.
  rewrite !at_key_push_back, lookup_insert. case_decide as Hk.
  - intros [= <-]. subst k. split; [done|].
    rewrite !decide_True by done. split; apply elem_of_app; right; by left.
  - intros Hr'. destruct (Hm k r' Hr') as (? & ? & ?). split; [done|].
    split; case_decide; try done; apply elem_of_app; by left.
Qed.

Lemma endpoints_kept_spec g r :
  endpoints_kept g r = true →
  ∀ r', references_ g !! Reference.id r = Some r' →
    Reference.fromSymbolId r' = Reference.fromSymbolId r
    ∧ Reference.toSymbolId r' = Reference.toSymbolId r.
Proof.
  unfold endpoints_kept. intros H r' Hr'. rewrite Hr' in H.
  by apply bool_decide_eq_true in H.
Qed.

Lemma fresh_endpoints_kept g r :
  references_ g !! Reference.id r = None → endpoints_kept g r = true.
Proof. unfold endpoints_kept. by intros ->. Qed.

Lemma push_back_backed (e : endpoint) (A : adjacency) g r :
  (∀ r', references_ g !! Reference.id r = Some r' → e r' = e r) →
  backed e A (references_ g) →
  backed e (push_back_at A (e r) (Reference.id r))
         (<[Reference.id r := r]> (references_ g)).
Proof.
  intros Hkept Hb s k. rewrite at_key_push_back, lookup_insert.
  assert (k ∈ at_key A s →
          ∃ r0, (if decide (Reference.id r = k) then Some r
                 else references_ g !! k) = Some r0 ∧ e r0 = s) as Hold.
  { intros Hin. destruct (Hb s k Hin) as (r' & Hr' & He).
    case_decide as Hk; [|by exists r'].
    subst k. exists r. split; [done|]. rewrite <- He. symmetry. by apply Hkept. }
  destruct (decide (e r = s)) as [Hs|Hs]; [|done].
  intros [Hin| ->%list_elem_of_singleton]%elem_of_app; [by apply Hold|].
  rewrite decide_True by done. by exists r.
Qed.

Lemma addReference_consistent g r :
  consistent g → endpoints_kept g r = true → consistent (addReference g r).
Proof.
  intros (Hm & Hb1 & Hb2) Hkept0.
  pose proof (endpoints_kept_spec g r Hkept0) as Hkept.
  split; [by apply addReference_mirrored|]. unfold addReference. simpl. split.
  - apply (push_back_backed Reference.fromSymbolId); [|done].
    intros r' Hr'. by destruct (Hkept r' Hr').
  - apply (push_back_backed Reference.toSymbolId); [|done].
    intros r' Hr'. by destruct (Hkept r' Hr').
Qed.

Lemma addReference_exact g r :
  exact g → references_ g !! Reference.id r = None → exact (addReference g r).
Proof.
  intros ((Hm & Hb1 & Hb2) & Hd1 & Hd2) Hfresh.
  split; [by apply addReference_consistent, fresh_endpoints_kept|].
  assert (∀ e (A : adjacency) s k, backed e A (references_ g) →
            k ∈ at_key A s → k ≠ Reference.id r) as Hne.
  { intros e A s k Hb Hin ->. destruct (Hb _ _ Hin) as (? & ? & _). congruence. }
  unfold addReference. simpl. split.
  - intros s. rewrite at_key_push_back. case_decide; [|done].
    apply NoDup_app. split; [done|]. split; [|apply NoDup_singleton].
    intros k Hin ->%list_elem_of_singleton. exact (Hne _ _ _ _ Hb1 Hin eq_refl).
  - intros s. rewrite at_key_push_back. case_decide; [|done].
    apply NoDup_app. split; [done|]. split; [|apply NoDup_singleton].
    intros k Hin ->%list_elem_of_singleton. exact (Hne _ _ _ _ Hb2 Hin eq_refl).
Qed.

Lemma addReferences_mirrored g l : mirrored g → mirrored (addReferences g l).
Proof.
  unfold addReferences. revert g. induction l as [|r l IH]; intros g Hm; [done|].
  simpl. by apply IH, addReference_mirrored.
Qed.

Lemma addReferences_consistent g l :
  consistent g → stable_references g l = true → consistent (addReferences g l).
Proof.
  unfold addReferences. revert g. induction l as [|r l IH]; intros g He; [done|].
  simpl. intros [Hr Hl]%andb_true_iff. apply IH; [|done].
  by apply addReference_consistent.
Qed.

Lemma addReferences_exact g l :
  exact g → fresh_references g l = true → exact (addReferences g l).
Proof.
  unfold addReferences. revert g. induction l as [|r l IH]; intros g He; [done|].
  simpl. intros [Hr Hl]%andb_true_iff. apply IH; [|done].
  apply addReference_exact; [done|]. by apply bool_decide_eq_true in Hr.
Qed.

Lemma removeReferences_mirrored g s : mirrored g → mirrored (removeReferences g s).
Proof. intros Hm. rewrite removeReferences_unfold. by apply purge_mirrored. Qed.

Lemma removeReferences_consistent g s : consistent g → consistent (removeReferences g s).
Proof. intros He. rewrite removeReferences_unfold. by apply purge_consistent. Qed.

Lemma removeReferences_exact g s : exact g → exact (removeReferences g s).
Proof. intros He. rewrite removeReferences_unfold. by apply purge_exact. Qed.

Lemma removeFile_body_mirrored g sym : mirrored g → mirrored (removeFile_body g sym).
Proof.
  intros Hm%(removeReferences_mirrored _ (Symbol.id sym)).
  rewrite removeFile_body_unfold. apply mirrored_gen_swap.
  by apply purge_mirrored, mirrored_gen_swap.
Qed.

Lemma removeFile_body_consistent g sym : consistent g → consistent (removeFile_body g sym).
Proof.
  intros He%(removeReferences_consistent _ (Symbol.id sym)).
  rewrite removeFile_body_unfold. apply consistent_gen_swap.
  by apply purge_consistent, consistent_gen_swap.
Qed.

Lemma removeFile_body_exact g sym : exact g → exact (removeFile_body g sym).
Proof.
  intros He%(removeReferences_exact _ (Symbol.id sym)).
  rewrite removeFile_body_unfold. apply exact_gen_swap.
  by apply purge_exact, exact_gen_swap.
Qed.

Lemma removeFile_mirrored g path : mirrored g → mirrored (removeFile g path).
Proof.
  unfold removeFile. destruct (files_ g !! path) as [f|]; [|done].
  cbv zeta. generalize (FileData.symbols f). intros l. revert g.
  induction l as [|a l IH]; intros g Hm; [done|].
  simpl foldl. by apply IH, removeFile_body_mirrored.
Qed.

Lemma removeFile_consistent g path : consistent g → consistent (removeFile g path).
Proof.
  unfold removeFile. destruct (files_ g !! path) as [f|]; [|done].
  cbv zeta. generalize (FileData.symbols f). intros l. revert g.
  induction l as [|a l IH]; intros g Hm; [done|].
  simpl foldl. by apply IH, removeFile_body_consistent.
Qed.

Lemma removeFile_exact g path : exact g → exact (removeFile g path).
Proof.
  unfold removeFile. destruct (files_ g !! path) as [f|]; [|done].
  cbv zeta. generalize (FileData.symbols f). intros l. revert g.
  induction l as [|a l IH]; intros g Hm; [done|].
  simpl foldl. by apply IH, removeFile_body_exact.
Qed.

Lemma addFile_mirrored g f : mirrored g → mirrored (addFile g f).
Proof. unfold addFile. by rewrite addSymbols_unfold. Qed.

Lemma addFile_consistent g f : consistent g → consistent (addFile g f).
Proof. unfold addFile. by rewrite addSymbols_unfold. Qed.

Lemma addFile_exact g f : exact g → exact (addFile g f).
Proof. unfold addFile. by rewrite addSymbols_unfold. Qed.

Lemma step_mirrored g op : mirrored g → mirrored (step g op).
Proof.
  destruct op; simpl; intros Hm; rewrite ?addSymbols_unfold;
    auto using addReference_mirrored, addReferences_mirrored,
      removeReferences_mirrored, addFile_mirrored, removeFile_mirrored,
      mirrored_init.
  by apply addFile_mirrored, removeFile_mirrored.
Qed.

Lemma step_consistent g op : consistent g → stable_op g op = true → consistent (step g op).
Proof.
  destruct op; simpl; intros He Hf; rewrite ?addSymbols_unfold;
    auto using addReferences_consistent, removeReferences_consistent, addFile_consistent,
      removeFile_consistent, consistent_init.
  - by apply (addReferences_consistent g [reference]).
  - by apply addFile_consistent, removeFile_consistent.
Qed.

Lemma step_exact g op : exact g → fresh_op g op = true → exact (step g op).
Proof.
  destruct op; simpl; intros He Hf; rewrite ?addSymbols_unfold;
    auto using addReferences_exact, removeReferences_exact, addFile_exact,
      removeFile_exact, exact_init.
  - by apply (addReferences_exact g [reference]).
  - by apply addFile_exact, removeFile_exact.
Qed.

Lemma run_mirrored g ops : mirrored g → mirrored (run g ops).
Proof.
  unfold run. revert g. induction ops as [|op ops IH]; intros g Hm; [done|].
  simpl. by apply IH, step_mirrored.
Qed.

Lemma run_consistent g ops : consistent g → stable_trace g ops = true → consistent (run g ops).
Proof.
  unfold run. revert g. induction ops as [|op ops IH]; intros g He; [done|].
  simpl. intros [H1 H2]%andb_true_iff. apply IH; [|done]. by apply step_consistent.
Qed.

Lemma run_exact g ops : exact g → fresh_trace g ops = true → exact (run g ops).
Proof.
  unfold run. revert g. induction ops as [|op ops IH]; intros g He; [done|].
  simpl. intros [H1 H2]%andb_true_iff. apply IH; [|done]. by apply step_exact.
Qed.

Lemma reachable_mirrored g : reachable g → mirrored g.
Proof. intros [ops ->]. apply run_mirrored, mirrored_init. Qed.

Lemma reachable_stable_consistent g : reachable_stable g → consistent g.
Proof. intros (ops & Hf & ->). by apply run_consistent; [apply consistent_init|]. Qed.

Lemma reachable_fresh_exact g : reachable_fresh g → exact g.
Proof. intros (ops & Hf & ->). by apply run_exact; [apply exact_init|]. Qed.

Lemma fresh_references_stable g l :
  fresh_references g l = true → stable_references g l = true.
Proof.
  revert g. induction l as [|r l IH]; intros g; [done|]. simpl.
  intros [Hr%bool_decide_eq_true Hl]%andb_true_iff.
  by rewrite fresh_endpoints_kept, IH.
Qed.

Lemma fresh_trace_stable g ops :
  fresh_trace g ops = true → stable_trace g ops = true.
Proof.
  revert g. induction ops as [|op ops IH]; intros g; [done|]. simpl.
  intros [Hop Hops]%andb_true_iff. rewrite (IH _ Hops), andb_true_r.
  destruct op; try done; by apply fresh_references_stable.
Qed.

Lemma reachable_fresh_stable g : reachable_fresh g → reachable_stable g.
Proof. intros (ops & Hf%fresh_trace_stable & ->). by exists ops. Qed.

Lemma reachable_stable_reachable g : reachable_stable g → reachable g.
Proof. intros (ops & _ & ->). by exists ops. Qed.

Lemma reachable_fresh_reachable g : reachable_fresh g → reachable g.
Proof. intros (ops & _ & ->). by exists ops. Qed.

(** ** The symbol table *)

Lemma removeReferences_symbols g s : symbols_ (removeReferences g s) = symbols_ g.
Proof. by rewrite removeReferences_unfold. Qed.

Lemma foldl_removeFile_body_symbols g l :
  symbols_ (foldl removeFile_body g l)
  = foldl (λ m sym, delete (Symbol.id sym) m) (symbols_ g) l.
Proof.
  revert g. induction l as [|a l IH]; intros g; [done|].
  simpl. rewrite IH. by rewrite removeFile_body_unfold.
Qed.

Lemma lookup_foldl_delete (m : gmap string Symbol.t) l k :
  foldl (λ m sym, delete (Symbol.id sym) m) m l !! k
  = if decide (k ∈ Symbol.id <$> l) then None else m !! k.
Proof.
  revert m. induction l as [|a l IH]; intros m.
  - by rewrite decide_False by apply not_elem_of_nil.
  - simpl. rewrite IH. destruct (decide (k ∈ Symbol.id <$> l)) as [Hin|Hnin].
    + by rewrite decide_True by by right.
    + destruct (decide (k = Symbol.id a)) as [->|Hne].
      * rewrite decide_True by left. apply lookup_delete_eq.
      * rewrite decide_False by by intros [?|?]%elem_of_cons.
        by apply lookup_delete_ne.
Qed.

Lemma removeFile_symbols_Some g path k s :
  symbols_ (removeFile g path) !! k = Some s → symbols_ g !! k = Some s.
Proof.
  unfold removeFile. destruct (files_ g !! path) as [f|]; [|done]. simpl.
  rewrite foldl_removeFile_body_symbols, lookup_foldl_delete. by case_decide.
Qed.

Lemma addSymbol_keyed g s : keyed_symbols g → keyed_symbols (addSymbol g s).
Proof.
  intros Hk k s'. unfold addSymbol. simpl. rewrite lookup_insert.
  case_decide; [by intros [= <-] | apply Hk].
Qed.

Lemma addSymbols_keyed g l : keyed_symbols g → keyed_symbols (addSymbols g l).
Proof.
  unfold addSymbols. revert g. induction l as [|a l IH]; intros g Hk; [done|].
  simpl. by apply IH, addSymbol_keyed.
Qed.

Lemma removeFile_keyed g path : keyed_symbols g → keyed_symbols (removeFile g path).
Proof. intros Hk k s Hs. by apply Hk, (removeFile_symbols_Some g path). Qed.

Lemma addFile_keyed g f : keyed_symbols g → keyed_symbols (addFile g f).
Proof. intros Hk. by apply addSymbols_keyed. Qed.

Lemma addReferences_symbols g l : symbols_ (addReferences g l) = symbols_ g.
Proof.
  unfold addReferences. revert g. induction l as [|a l IH]; intros g; [done|].
  simpl. by rewrite IH.
Qed.

Lemma step_keyed g op : keyed_symbols g → keyed_symbols (step g op).
Proof.
  destruct op; simpl; intros Hk; try exact Hk;
    auto using addSymbol_keyed, addSymbols_keyed, addFile_keyed,
      removeFile_keyed, keyed_symbols_init.
  - intros k s. rewrite addReferences_symbols. apply Hk.
  - intros k s. rewrite removeReferences_symbols. apply Hk.
  - by apply addFile_keyed, removeFile_keyed.
Qed.

Lemma reachable_keyed g : reachable g → keyed_symbols g.
Proof.
  intros [ops ->]. unfold run. generalize keyed_symbols_init. generalize init.
  induction ops as [|op ops IH]; intros g Hk; [done|].
  simpl. by apply IH, step_keyed.
Qed.

(** ** The query loops in closed form *)

Lemma foldl_resolve_body g acc ids :
  foldl (resolve_body g) acc ids = acc ++ omap (λ k, references_ g !! k) ids.
Proof.
  revert acc. induction ids as [|a ids IH]; intros acc; simpl.
  - by rewrite app_nil_r.
  - rewrite IH. unfold resolve_body.
    destruct (references_ g !! a); [by rewrite <- app_assoc | done].
Qed.

Lemma findCallers_omap g s :
  findCallers g s
  = omap (λ k, references_ g !! k) (at_key (symbolToCallers_ g) s).
Proof.
  unfold findCallers, at_key. destruct (symbolToCallers_ g !! s); [|done].
  by rewrite foldl_resolve_body.
Qed.

Lemma findCallees_omap g s :
  findCallees g s
  = omap (λ k, references_ g !! k) (at_key (symbolToReferences_ g) s).
Proof.
  unfold findCallees, at_key. destruct (symbolToReferences_ g !! s); [|done].
  by rewrite foldl_resolve_body.
Qed.

Lemma foldl_push_if {A B} (c : A → bool) (f : A → B) acc l :
  foldl (λ result x, if c x then result ++ [f x] else result) acc l
  = acc ++ (f <$> filter (λ x, c x = true) l).
Proof.
  revert acc. induction l as [|a l IH]; intros acc; simpl.
  - by rewrite app_nil_r.
  - rewrite IH, filter_cons. destruct (c a) eqn:E.
    + rewrite decide_True by done. by rewrite <- app_assoc.
    + rewrite decide_False by congruence. done.
Qed.

Lemma getAllSymbols_fmap g : getAllSymbols g = (map_to_list (symbols_ g)).*2.
Proof.
  unfold getAllSymbols.
  rewrite (foldl_push_if (λ _, true) snd [] (map_to_list (symbols_ g))).
  simpl. f_equal. induction (map_to_list (symbols_ g)) as [|a l IH]; [done|].
  rewrite filter_cons_True by done. by f_equal.
Qed.

Lemma elem_of_getAllSymbols g s :
  s ∈ getAllSymbols g ↔ ∃ k, symbols_ g !! k = Some s.
Proof.
  rewrite getAllSymbols_fmap, list_elem_of_fmap. split.
  - intros ([k s'] & -> & Hin%elem_of_map_to_list). by exists k.
  - intros [k Hk]. exists (k, s). split; [done|]. by apply elem_of_map_to_list.
Qed.

Lemma elem_of_findUnusedSymbols g s :
  s ∈ findUnusedSymbols g
  ↔ ∃ k, symbols_ g !! k = Some s ∧ isSymbolUsed g k = false.
Proof.
  unfold findUnusedSymbols.
  rewrite (foldl_push_if (λ pair, negb (isSymbolUsed g pair.1)) snd).
  simpl. rewrite list_elem_of_fmap. split.
  - intros ([k s'] & -> & [Hu Hin%elem_of_map_to_list]%list_elem_of_filter).
    exists k. split; [done|]. simpl in Hu. by apply negb_true_iff in Hu.
  - intros (k & Hk & Hu). exists (k, s). split; [done|].
    apply list_elem_of_filter. split; [simpl; by rewrite Hu|].
    by apply elem_of_map_to_list.
Qed.

(** ** Reachability of the sample graphs *)

Lemma ex_twice_reachable : reachable ex_twice.
Proof. by exists [OpAddReference ex_r1; OpAddReference ex_r1]. Qed.

Lemma ex_moved_reachable : reachable ex_moved.
Proof. by exists [OpAddReference ex_r1; OpAddReference ex_r1_moved]. Qed.

(** The scenario of the specification, run on the model. *)
Example scenario_findCallers : findCallers ex_graph "f1::foo::1" = [ex_r1].
Proof. vm_compute. reflexivity. Qed.

Example scenario_findUnusedSymbols : findUnusedSymbols ex_graph = [ex_bar].
Proof. vm_compute. reflexivity. Qed.

Example scenario_findExportedSymbols : findExportedSymbols ex_graph = [ex_foo].
Proof. vm_compute. reflexivity. Qed.

Example scenario_removeFile_empties :
  removeFile ex_graph "f1" = init.
Proof. vm_compute. reflexivity. Qed.

Example scenario_stale_entry :
  at_key (symbolToReferences_ ex_moved) "f1::bar::5" = ["r1"]
  ∧ references_ ex_moved !! "r1" = Some ex_r1_moved.
Proof. vm_compute. split; reflexivity. Qed.

(** ** C1: bidirectional mirroring *)

(** C1, as stated, fails: after [addReference(r1)] twice the id [r1] is
    listed twice under its source symbol. *)
Lemma C1_mirroring_exactly_once_fails :
  ¬ (∀ g k r, reachable g → references_ g !! k = Some r →
       occurrences (Reference.id r)
         (at_key (symbolToReferences_ g) (Reference.fromSymbolId r)) = 1
       ∧ occurrences (Reference.id r)
           (at_key (symbolToCallers_ g) (Reference.toSymbolId r)) = 1).
Proof.
  intros H.
  destruct (H ex_twice "r1" ex_r1 ex_twice_reachable) as [H1 _]; [by vm_compute|].
  vm_compute in H1. discriminate H1.
Qed.

(** C1 (amended): in every reachable state a stored reference is keyed by
    its own id and its id is listed at least once under its source in the
    outgoing index and at least once under its target in the incoming index;
    when the state was reached without ever adding a reference whose id was
    already a key of the reference table, each of the two lists holds the id
    exactly once. *)
Theorem C1_mirroring g k r :
  reachable g → references_ g !! k = Some r →
  Reference.id r = k
  ∧ (1 ≤ occurrences (Reference.id r)
           (at_key (symbolToReferences_ g) (Reference.fromSymbolId r)))%nat
  ∧ (1 ≤ occurrences (Reference.id r)
           (at_key (symbolToCallers_ g) (Reference.toSymbolId r)))%nat
  ∧ (reachable_fresh g →
       occurrences (Reference.id r)
         (at_key (symbolToReferences_ g) (Reference.fromSymbolId r)) = 1
       ∧ occurrences (Reference.id r)
           (at_key (symbolToCallers_ g) (Reference.toSymbolId r)) = 1).
Proof.
  intros Hm%reachable_mirrored Hr. destruct (Hm k r Hr) as (Hid & Ho & Hi).
  rewrite Hid. split; [done|].
  split; [by apply occurrences_elem_of|]. split; [by apply occurrences_elem_of|].
  intros (_ & Hd1 & Hd2)%reachable_fresh_exact.
  split; by apply occurrences_NoDup.
Qed.

Lemma C1_mirroring_witness :
  references_ ex_graph !! "r1" = Some ex_r1
  ∧ occurrences "r1" (at_key (symbolToReferences_ ex_graph) "f1::bar::5") = 1
  ∧ occurrences "r1" (at_key (symbolToCallers_ ex_graph) "f1::foo::1") = 1.
Proof.
  assert (references_ ex_graph !! "r1" = Some ex_r1) as Hr by (vm_compute; reflexivity).
  split; [exact Hr|].
  refine (proj2 (proj2 (proj2 (C1_mirroring ex_graph "r1" ex_r1 _ Hr))) _).
  - exists [OpAddFile ex_file; OpAddReference ex_r1]. reflexivity.
  - exists [OpAddFile ex_file; OpAddReference ex_r1].
    split; [vm_compute; reflexivity | reflexivity].
Defined.

(** ** C2: cascading delete *)

Lemma removeFile_body_references g sym k r :
  mirrored g →
  references_ (removeFile_body g sym) !! k = Some r →
  references_ g !! k = Some r
  ∧ Reference.fromSymbolId r ≠ Symbol.id sym
  ∧ Reference.toSymbolId r ≠ Symbol.id sym.
Proof.
  intros Hm. pose proof (removeReferences_mirrored g (Symbol.id sym) Hm) as Hm1.
  rewrite removeFile_body_unfold. cbv zeta. cbn [references_].
  intros Hk.
  apply (purge_survivors Reference.toSymbolId Reference.fromSymbolId) in Hk
    as [Hk Hto]; [|by apply mirrored_gen_swap].
  rewrite removeReferences_unfold in Hk. cbv zeta in Hk. cbn [references_] in Hk.
  apply (purge_survivors Reference.fromSymbolId Reference.toSymbolId) in Hk
    as [Hk Hfrom]; done.
Qed.

Lemma foldl_removeFile_body_references g l k r :
  mirrored g →
  references_ (foldl removeFile_body g l) !! k = Some r →
  references_ g !! k = Some r
  ∧ ∀ sym, sym ∈ l →
      Reference.fromSymbolId r ≠ Symbol.id sym
      ∧ Reference.toSymbolId r ≠ Symbol.id sym.
Proof.
  revert g. induction l as [|a l IH]; intros g Hm; simpl.
  - intros Hk. split; [done|]. by intros sym ?%elem_of_nil.
  - intros [Hk Hl]%IH; [|by apply removeFile_body_mirrored].
    apply removeFile_body_references in Hk as (Hk & Hf & Ht); [|done].
    split; [done|]. intros sym [->|Hin]%elem_of_cons; [done | by apply Hl].
Qed.

Lemma addFile_files g f : files_ (addFile g f) !! FileData.path f = Some f.
Proof. unfold addFile. rewrite addSymbols_unfold. apply lookup_insert_eq. Qed.

(** C2: from any reachable state, after [addFile(f)] then
    [removeFile(f.path)] no symbol of [f] is in the symbol table, and no
    reference having such a symbol as source or target is returned by
    [findCallers] or [findCallees], whatever symbol is queried. *)
Theorem C2_cascading_delete g f s x r :
  reachable g → s ∈ FileData.symbols f →
  let g' := removeFile (addFile g f) (FileData.path f) in
  hasSymbol g' (Symbol.id s) = false
  ∧ (Reference.fromSymbolId r = Symbol.id s
     ∨ Reference.toSymbolId r = Symbol.id s →
     (r ∉ findCallers g' x) ∧ (r ∉ findCallees g' x)).
Proof.
  intros Hm%reachable_mirrored%(addFile_mirrored _ f) Hs g'.
  subst g'. rewrite (removeFile_files_Some _ _ f) by apply addFile_files.
  cbv zeta. split.
  - unfold hasSymbol. simpl.
    rewrite foldl_removeFile_body_symbols, lookup_foldl_delete.
    rewrite decide_True by by apply list_elem_of_fmap_2.
    apply bool_decide_eq_false. by intros [? ?].
  - assert (∀ k, references_ (foldl removeFile_body (addFile g f)
                                (FileData.symbols f)) !! k = Some r →
                 Reference.fromSymbolId r ≠ Symbol.id s
                 ∧ Reference.toSymbolId r ≠ Symbol.id s) as Hgone.
    { intros k [_ Hl]%foldl_removeFile_body_references; [by apply Hl | done]. }
    intros Hends. rewrite findCallers_omap, findCallees_omap. simpl.
    split; intros (k & _ & Hk%Hgone)%list_elem_of_omap; tauto.
Qed.

Lemma C2_cascading_delete_witness :
  let g' := removeFile (addFile ex_graph ex_file) "f1" in
  hasSymbol g' "f1::foo::1" = false
  ∧ (ex_r1 ∉ findCallers g' "f1::foo::1")
  ∧ (ex_r1 ∉ findCallees g' "f1::bar::5").
Proof.
  assert (reachable ex_graph) as Hg
    by (exists [OpAddFile ex_file; OpAddReference ex_r1]; reflexivity).
  assert (ex_foo ∈ FileData.symbols ex_file) as Hs by (vm_compute; left).
  split; [exact (proj1 (C2_cascading_delete ex_graph ex_file ex_foo "" ex_r1 Hg Hs))|].
  split.
  - exact (proj1 (proj2 (C2_cascading_delete ex_graph ex_file ex_foo
                           "f1::foo::1" ex_r1 Hg Hs) (or_intror eq_refl))).
  - exact (proj2 (proj2 (C2_cascading_delete ex_graph ex_file ex_foo
                           "f1::bar::5" ex_r1 Hg Hs) (or_intror eq_refl))).
Defined.

(** ** C3: findCallers and findCallees *)

Lemma NoDup_omap_lookup (R : reftable) (l : list string) :
  (∀ k r, R !! k = Some r → Reference.id r = k) →
  NoDup l → NoDup (omap (λ k, R !! k) l).
Proof.
  intros Hid. induction 1 as [|a l Ha Hl IH]; simpl; [constructor|].
  destruct (R !! a) as [r|] eqn:E; [|done].
  constructor; [|done].
  intros (k & Hk & Hr)%list_elem_of_omap.
  apply Hid in E, Hr. congruence.
Qed.

Lemma consistent_resolve e1 A1 e2 A2 R s r :
  consistent_gen e1 A1 e2 A2 R →
  r ∈ omap (λ k, R !! k) (at_key A1 s)
  ↔ R !! Reference.id r = Some r ∧ e1 r = s.
Proof.
  intros (Hm & Hb1 & _). rewrite list_elem_of_omap. split.
  - intros (k & Hin & Hr). destruct (Hm k r Hr) as (<- & _).
    destruct (Hb1 s _ Hin) as (r' & Hr' & He). split; congruence.
  - intros [Hr <-]. exists (Reference.id r). split; [|done].
    by destruct (Hm _ r Hr) as (_ & ? & _).
Qed.

(** C3, as stated, fails: once the id [r1] has been re-added with other
    endpoints, [findCallers] of the old target returns the new reference,
    whose [toSymbolId] is another symbol. *)
Lemma C3_findCallers_by_target_fails :
  ¬ (∀ g s r, reachable g → r ∈ findCallers g s → Reference.toSymbolId r = s).
Proof.
  intros H.
  specialize (H ex_moved "f1::foo::1" ex_r1_moved ex_moved_reachable).
  assert (findCallers ex_moved "f1::foo::1" = [ex_r1_moved]) as E
    by (vm_compute; reflexivity).
  rewrite E in H. discriminate H. by left.
Qed.

(** C3 (amended): in every state [findCallers(symbolId)] is the incoming
    list of [symbolId] resolved id by id through the reference table, in
    list order, an id without a reference being skipped; [findCallees] is
    the same over the outgoing list.  In a state reached without re-adding
    a live reference id under other endpoints, the result of [findCallers]
    holds exactly the stored references whose [toSymbolId] is [symbolId],
    and the result of [findCallees] exactly those whose [fromSymbolId] is
    [symbolId]; when no live reference id was re-added at all, each of them
    occurs once. *)
Theorem C3_find_postcondition g s :
  findCallers g s
  = omap (λ k, references_ g !! k) (at_key (symbolToCallers_ g) s)
  ∧ findCallees g s
    = omap (λ k, references_ g !! k) (at_key (symbolToReferences_ g) s)
  ∧ (reachable_stable g →
       (∀ r, r ∈ findCallers g s
             ↔ references_ g !! Reference.id r = Some r
               ∧ Reference.toSymbolId r = s)
       ∧ (∀ r, r ∈ findCallees g s
               ↔ references_ g !! Reference.id r = Some r
                 ∧ Reference.fromSymbolId r = s))
  ∧ (reachable_fresh g →
       NoDup (findCallers g s) ∧ NoDup (findCallees g s)).
Proof.
  split; [apply findCallers_omap|]. split; [apply findCallees_omap|].
  rewrite findCallers_omap, findCallees_omap. split.
  - intros Hc%reachable_stable_consistent. split; intros r.
    + by apply (consistent_resolve _ _ _ _ _ _ _ (consistent_gen_swap _ _ _ _ _ Hc)).
    + by apply (consistent_resolve _ _ _ _ _ _ _ Hc).
  - intros ((Hm & _) & Hd1 & Hd2)%reachable_fresh_exact.
    assert (∀ k r, references_ g !! k = Some r → Reference.id r = k) as Hid.
    { intros k r Hr. by destruct (Hm k r Hr). }
    split; by apply NoDup_omap_lookup.
Qed.

Lemma C3_find_postcondition_witness :
  reachable_stable ex_graph
  ∧ findCallers ex_graph "f1::foo::1" = [ex_r1]
  ∧ (ex_r1 ∈ findCallers ex_graph "f1::foo::1"
     ↔ references_ ex_graph !! "r1" = Some ex_r1
       ∧ Reference.toSymbolId ex_r1 = "f1::foo::1")
  ∧ NoDup (findCallers ex_graph "f1::foo::1").
Proof.
  assert (reachable_stable ex_graph) as Hs.
  { exists [OpAddFile ex_file; OpAddReference ex_r1].
    split; [vm_compute; reflexivity | reflexivity]. }
  assert (reachable_fresh ex_graph) as Hf.
  { exists [OpAddFile ex_file; OpAddReference ex_r1].
    split; [vm_compute; reflexivity | reflexivity]. }
  destruct (C3_find_postcondition ex_graph "f1::foo::1") as (E & _ & Hmem & Hnd).
  split; [exact Hs|]. split; [|split].
  - rewrite E. vm_compute. reflexivity.
  - exact (proj1 (Hmem Hs) ex_r1).
  - exact (proj1 (Hnd Hf)).
Defined.

(** ** C4: removeReferences *)

(** C4, as stated, fails: with the id [r1] re-added as a reference from
    [baz] to [bar] while still listed under its former source [bar],
    [removeReferences(bar)] deletes it although [bar] is its target and not
    its source. *)
Lemma C4_removeReferences_incoming_survive_fails :
  ¬ (∀ g s k r, reachable g → references_ g !! k = Some r →
       Reference.toSymbolId r = s → Reference.fromSymbolId r ≠ s →
       references_ (removeReferences g s) !! k = Some r).
Proof.
  intros H.
  specialize (H ex_moved "f1::bar::5" "r1" ex_r1_moved ex_moved_reachable).
  assert (references_ (removeReferences ex_moved "f1::bar::5") !! "r1" = None) as E
    by (vm_compute; reflexivity).
  rewrite E in H. discriminate H; [by vm_compute | done | by vm_compute].
Qed.

(** C4 (amended): in every state [removeReferences(symbolId)] leaves no
    outgoing entry for [symbolId], leaves every other outgoing entry, the
    symbol table, the file map and the dirty set as they were, stores no
    reference that was not stored before, and only takes ids out of the
    incoming lists.  In every reachable state it deletes from the reference
    table every reference whose [fromSymbolId] is [symbolId] and takes the id
    of each of them out of the incoming list of its [toSymbolId]; the
    references still stored afterwards have another [fromSymbolId].  In a
    state reached without re-adding a live reference id under other
    endpoints it deletes only those: every reference whose [fromSymbolId]
    differs from [symbolId] is still stored, in particular every reference
    whose [toSymbolId] is [symbolId] and whose [fromSymbolId] differs, and
    no id other than those of the deleted references leaves an incoming
    list. *)
Theorem C4_removeReferences_contract g s :
  let g' := removeReferences g s in
  symbolToReferences_ g' !! s = None
  ∧ (∀ x, x ≠ s → symbolToReferences_ g' !! x = symbolToReferences_ g !! x)
  ∧ symbols_ g' = symbols_ g ∧ files_ g' = files_ g
  ∧ dirtyFiles_ g' = dirtyFiles_ g
  ∧ (∀ k r, references_ g' !! k = Some r → references_ g !! k = Some r)
  ∧ (∀ x k, k ∈ at_key (symbolToCallers_ g') x
            → k ∈ at_key (symbolToCallers_ g) x)
  ∧ (reachable g →
       (∀ k r, references_ g !! k = Some r → Reference.fromSymbolId r = s →
               references_ g' !! k = None
               ∧ k ∉ at_key (symbolToCallers_ g') (Reference.toSymbolId r))
       ∧ (∀ k r, references_ g' !! k = Some r → Reference.fromSymbolId r ≠ s))
  ∧ (reachable_stable g →
       (∀ k r, references_ g' !! k = Some r
               ↔ references_ g !! k = Some r ∧ Reference.fromSymbolId r ≠ s)
       ∧ (∀ k r, references_ g !! k = Some r → Reference.toSymbolId r = s →
                 Reference.fromSymbolId r ≠ s → references_ g' !! k = Some r)
       ∧ (∀ x k, k ∈ at_key (symbolToCallers_ g') x
                 ↔ k ∈ at_key (symbolToCallers_ g) x
                   ∧ ∃ r, references_ g' !! k = Some r)).
Proof.
  intros g'. subst g'. rewrite removeReferences_unfold. cbv zeta.
  cbn [references_ symbolToCallers_ symbolToReferences_ symbols_ files_ dirtyFiles_].
  split; [apply lookup_delete_eq|].
  split; [intros x Hx; by apply lookup_delete_ne|].
  split; [done|]. split; [done|]. split; [done|].
  split; [by intros k r [_ ?]%prune_refs_Some|].
  split; [by intros x k [? _]%prune_adj_elem_of|].
  split.
  - intros Hm%reachable_mirrored. split.
    + intros k r Hr Hfrom. destruct (Hm k r Hr) as (_ & Hout & _).
      rewrite Hfrom in Hout. split.
      * rewrite prune_refs. by rewrite decide_True.
      * intros [_ Hnot]%prune_adj_elem_of. apply Hnot. split; [done|].
        by rewrite Hr.
    + intros k r Hk.
      by apply (purge_survivors Reference.fromSymbolId Reference.toSymbolId) in Hk
        as [_ ?].
  - intros (Hm & Hb1 & Hb2)%reachable_stable_consistent.
    assert (∀ k r,
      (prune Reference.toSymbolId (references_ g) (symbolToCallers_ g)
         (at_key (symbolToReferences_ g) s)).1 !! k = Some r
      ↔ references_ g !! k = Some r ∧ Reference.fromSymbolId r ≠ s) as Hrefs.
    { intros k r. split.
      - by apply (purge_survivors Reference.fromSymbolId Reference.toSymbolId).
      - intros [Hr Hne].
        by apply (purge_keeps Reference.fromSymbolId Reference.toSymbolId). }
    split; [exact Hrefs|]. split.
    + intros k r Hr _ Hne. by apply Hrefs.
    + intros x k. rewrite prune_adj_elem_of. split.
      * intros [Hin Hnot]. split; [done|].
        destruct (Hb2 x k Hin) as (r & Hr & Hto). exists r.
        apply prune_refs_Some. split; [|done].
        intros Hk. apply Hnot. split; [done|]. by rewrite Hr, <- Hto.
      * intros [Hin [r [Hk _]%prune_refs_Some]]. split; [done|]. by intros [? _].
Qed.

Lemma C4_removeReferences_contract_witness :
  reachable_stable ex_graph
  ∧ references_ (removeReferences ex_graph "f1::bar::5") !! "r1" = None
  ∧ symbolToReferences_ (removeReferences ex_graph "f1::bar::5") !! "f1::bar::5" = None
  ∧ references_ (removeReferences ex_graph "f1::foo::1") !! "r1" = Some ex_r1.
Proof.
  assert (reachable ex_graph) as Hr
    by (exists [OpAddFile ex_file; OpAddReference ex_r1]; reflexivity).
  assert (reachable_stable ex_graph) as Hg.
  { exists [OpAddFile ex_file; OpAddReference ex_r1].
    split; [vm_compute; reflexivity | reflexivity]. }
  split; [exact Hg|].
  destruct (C4_removeReferences_contract ex_graph "f1::bar::5")
    as (Hout & _ & _ & _ & _ & _ & _ & Hreach & _).
  split; [|split; [exact Hout|]].
  - apply (proj1 (Hreach Hr) "r1" ex_r1); vm_compute; reflexivity.
  - destruct (C4_removeReferences_contract ex_graph "f1::foo::1")
      as (_ & _ & _ & _ & _ & _ & _ & _ & Hstable).
    destruct (Hstable Hg) as (_ & Hkeep & _).
    apply Hkeep; [vm_compute; reflexivity | reflexivity | discriminate].
Defined.

(** ** C5: updateFile *)

(** C5: from every state, the call [updateFile(path, file)] leads to the
    very state reached by the two calls [removeFile(path)] and then
    [addFile(file)]. *)
Theorem C5_updateFile_equivalence g path file :
  run g [OpUpdateFile path file] = run g [OpRemoveFile path; OpAddFile file]
  ∧ updateFile g path file = addFile (removeFile g path) file.
Proof. split; reflexivity. Qed.

(** ** C6: symmetry of adjacency *)

(** C6, as stated, fails: [r1] is added, no removing operation follows,
    yet after a second [addReference] with the same id and other endpoints
    neither [findCallees] of its source nor [findCallers] of its target
    returns it. *)
Lemma C6_symmetry_without_removal_fails :
  ¬ (∀ g r ops, reachable g → forallb (λ op, negb (is_removal op)) ops = true →
       let g' := run (addReference g r) ops in
       r ∈ findCallees g' (Reference.fromSymbolId r)
       ∧ r ∈ findCallers g' (Reference.toSymbolId r)).
Proof.
  intros H.
  destruct (H init ex_r1 [OpAddReference ex_r1_moved]) as [Hin _].
  - by exists [].
  - reflexivity.
  - assert (findCallees (run (addReference init ex_r1) [OpAddReference ex_r1_moved])
              (Reference.fromSymbolId ex_r1) = [ex_r1_moved]) as E
      by (vm_compute; reflexivity).
    rewrite E in Hin. apply list_elem_of_singleton in Hin. discriminate Hin.
Qed.

(** C6 (amended): in every reachable state, a reference [r] that is the
    value stored under its id in the reference table (it was added and has
    since been neither removed nor overwritten by an [addReference] with
    the same id) is returned by [findCallees(r.fromSymbolId)] and by
    [findCallers(r.toSymbolId)]. *)
Theorem C6_symmetry g r :
  reachable g → references_ g !! Reference.id r = Some r →
  r ∈ findCallees g (Reference.fromSymbolId r)
  ∧ r ∈ findCallers g (Reference.toSymbolId r).
Proof.
  intros Hm%reachable_mirrored Hr. destruct (Hm _ r Hr) as (_ & Ho & Hi).
  rewrite findCallees_omap, findCallers_omap.
  split; apply list_elem_of_omap; by exists (Reference.id r).
Qed.

Lemma C6_symmetry_witness :
  ex_r1 ∈ findCallees ex_graph "f1::bar::5"
  ∧ ex_r1 ∈ findCallers ex_graph "f1::foo::1".
Proof.
  apply (C6_symmetry ex_graph ex_r1).
  - exists [OpAddFile ex_file; OpAddReference ex_r1]. reflexivity.
  - vm_compute. reflexivity.
Defined.

(** ** C7: used / unused partition *)

(** C7: in every reachable state, for a symbol [s] of the symbol table
    exactly one of the two holds: [isSymbolUsed(s.id)] is true, or [s] is in
    the result of [findUnusedSymbols()]. *)
Theorem C7_used_unused_partition g s :
  reachable g → s ∈ getAllSymbols g →
  (isSymbolUsed g (Symbol.id s) = true ∧ s ∉ findUnusedSymbols g)
  ∨ (isSymbolUsed g (Symbol.id s) = false ∧ s ∈ findUnusedSymbols g).
Proof.
  intros Hk%reachable_keyed [k Hs]%elem_of_getAllSymbols.
  pose proof (Hk k s Hs) as <-.
  destruct (isSymbolUsed g (Symbol.id s)) eqn:Hu; [left | right]; (split; [done|]).
  - intros (k' & Hs' & Hu')%elem_of_findUnusedSymbols.
    pose proof (Hk k' s Hs') as <-. congruence.
  - apply elem_of_findUnusedSymbols. by exists (Symbol.id s).
Qed.

Lemma C7_used_unused_partition_witness :
  (isSymbolUsed ex_graph "f1::foo::1" = true ∧ ex_foo ∉ findUnusedSymbols ex_graph)
  ∨ (isSymbolUsed ex_graph "f1::foo::1" = false ∧ ex_foo ∈ findUnusedSymbols ex_graph).
Proof.
  apply (C7_used_unused_partition ex_graph ex_foo).
  - exists [OpAddFile ex_file; OpAddReference ex_r1]. reflexivity.
  - apply (bool_decide_unpack _). vm_compute. exact I.
Defined.

(** ** C8: not-found sentinels *)

(** C8: for an id that is not a key of the symbol table, [getSymbol]
    returns the default-constructed symbol, whose id is the empty string,
    and [hasSymbol] returns false; [findCallers] (resp. [findCallees]) on an
    id without an incoming (resp. outgoing) entry returns the empty list.
    Every one of these lookups returns a value. *)
Theorem C8_not_found_sentinels g symbolId :
  symbols_ g !! symbolId = None →
  getSymbol g symbolId = Symbol.empty
  ∧ Symbol.id (getSymbol g symbolId) = ""
  ∧ hasSymbol g symbolId = false
  ∧ (symbolToCallers_ g !! symbolId = None → findCallers g symbolId = [])
  ∧ (symbolToReferences_ g !! symbolId = None → findCallees g symbolId = []).
Proof.
  intros Hs. unfold getSymbol, hasSymbol, findCallers, findCallees. rewrite Hs.
  split; [done|]. split; [done|]. split.
  - apply bool_decide_eq_false. by intros [? ?].
  - split; by intros ->.
Qed.

Lemma C8_not_found_sentinels_witness :
  getSymbol ex_graph "f9::nope::0" = Symbol.empty
  ∧ hasSymbol ex_graph "f9::nope::0" = false
  ∧ findCallers ex_graph "f9::nope::0" = []
  ∧ findCallees ex_graph "f9::nope::0" = [].
Proof.
  destruct (C8_not_found_sentinels ex_graph "f9::nope::0") as (H1 & _ & H2 & H3 & H4).
  - vm_compute. reflexivity.
  - split; [exact H1|]. split; [exact H2|].
    split; [apply H3 | apply H4]; vm_compute; reflexivity.
Defined.

(** ** C9: statistics *)

(** C9: in every state [getStats().totalSymbols], [size()] and the length
    of [getAllSymbols()] are the number of entries of the symbol table. *)
Theorem C9_stats_consistency sz g :
  GraphStats.totalSymbols (getStats sz g) = size g
  ∧ size g = N.of_nat (length (getAllSymbols g))
  ∧ size g = N.of_nat (base.size (symbols_ g)).
Proof.
  split; [done|]. split; [|done].
  unfold size, container_size.
  by rewrite getAllSymbols_fmap, length_fmap, length_map_to_list.
Qed.

(** ** C10: removeFile on an unknown path *)

(** C10: when [hasFile(path)] is false, [removeFile(path)] returns the
    graph it was given: symbol table, reference table, both adjacency
    indices, file map and dirty set are all unchanged. *)
Theorem C10_removeFile_unknown_noop g path :
  hasFile g path = false → removeFile g path = g.
Proof.
  unfold hasFile, removeFile. intros Hf%bool_decide_eq_false.
  destruct (files_ g !! path) as [f|]; [|done]. destruct Hf. by exists f.
Qed.

Lemma C10_removeFile_unknown_noop_witness :
  hasFile ex_graph "f2" = false ∧ removeFile ex_graph "f2" = ex_graph.
Proof.
  assert (hasFile ex_graph "f2" = false) as Hf by (vm_compute; reflexivity).
  split; [exact Hf | exact (C10_removeFile_unknown_noop ex_graph "f2" Hf)].
Defined.

(** * Further properties of the graph *)

(** ** Lookups in terms of the tables *)

Lemma hasSymbol_true g k : hasSymbol g k = true ↔ is_Some (symbols_ g !! k).
Proof. unfold hasSymbol. apply bool_decide_eq_true. Qed.

Lemma hasSymbol_false g k : hasSymbol g k = false ↔ symbols_ g !! k = None.
Proof.
  unfold hasSymbol. rewrite bool_decide_eq_false, eq_None_not_Some. done.
Qed.

Lemma hasFile_true g p : hasFile g p = true ↔ is_Some (files_ g !! p).
Proof. unfold hasFile. apply bool_decide_eq_true. Qed.

Lemma addSymbols_snoc g l s :
  addSymbols g (l ++ [s]) = addSymbol (addSymbols g l) s.
Proof. unfold addSymbols. by rewrite foldl_app. Qed.

Lemma addSymbols_lookup g l k :
  symbols_ (addSymbols g l) !! k
  = match last (filter (λ s, Symbol.id s = k) l) with
    | Some s => Some s
    | None => symbols_ g !! k
    end.
Proof.
  induction l as [|s l IH] using rev_ind; [done|].
  rewrite addSymbols_snoc, filter_app. unfold addSymbol at 1. simpl.
  rewrite lookup_insert, filter_cons, filter_nil.
  destruct (decide (Symbol.id s = k)) as [Hk|Hk].
  - by rewrite last_snoc.
  - by rewrite app_nil_r.
Qed.

Lemma hasSymbol_addSymbols g l k :
  hasSymbol (addSymbols g l) k
  = hasSymbol g k || bool_decide (k ∈ Symbol.id <$> l).
Proof.
  unfold hasSymbol. rewrite addSymbols_lookup.
  destruct (last (filter (λ s, Symbol.id s = k) l)) as [s|] eqn:E.
  - apply last_Some_elem_of, list_elem_of_filter in E as [Hk Hin].
    rewrite (bool_decide_eq_true_2 (k ∈ Symbol.id <$> l)).
    + rewrite orb_true_r. by apply bool_decide_eq_true.
    + subst k. by apply list_elem_of_fmap_2.
  - apply last_None in E.
    rewrite (bool_decide_eq_false_2 (k ∈ Symbol.id <$> l)); [by rewrite orb_false_r|].
    intros (s & -> & Hin)%list_elem_of_fmap.
    assert (s ∈ filter (λ s0, Symbol.id s0 = Symbol.id s) l) as Hf
      by by apply list_elem_of_filter.
    rewrite E in Hf. by apply elem_of_nil in Hf.
Qed.

(** ** The symbol table: insert and lookup *)

(** X1: after [addSymbol(s)] the id of [s] is known and [getSymbol] returns
    [s] itself; every other id answers as before. *)
Theorem X1_addSymbol_lookup g s :
  hasSymbol (addSymbol g s) (Symbol.id s) = true
  ∧ getSymbol (addSymbol g s) (Symbol.id s) = s
  ∧ ∀ k, k ≠ Symbol.id s →
      hasSymbol (addSymbol g s) k = hasSymbol g k
      ∧ getSymbol (addSymbol g s) k = getSymbol g k.
Proof.
  unfold hasSymbol, getSymbol, addSymbol. simpl. split; [|split].
  - rewrite lookup_insert_eq. by apply bool_decide_eq_true.
  - by rewrite lookup_insert_eq.
  - intros k Hk. by rewrite lookup_insert_ne.
Qed.

(** X2: a batch is last-write-wins: after [addSymbols(l)] the symbol found
    under an id is the last element of [l] carrying that id, and the symbol
    that was there before when [l] has none. *)
Theorem X2_addSymbols_last_wins g l k :
  getSymbol (addSymbols g l) k
  = default (getSymbol g k) (last (filter (λ s, Symbol.id s = k) l))
  ∧ hasSymbol (addSymbols g l) k
    = hasSymbol g k || bool_decide (k ∈ Symbol.id <$> l).
Proof.
  split; [|apply hasSymbol_addSymbols].
  unfold getSymbol. rewrite addSymbols_lookup.
  by destruct (last (filter (λ s, Symbol.id s = k) l)).
Qed.

(** X3: adding the same symbol twice is adding it once, and [addSymbol]
    makes [size()] grow by one exactly when the id was unknown. *)
Theorem X3_addSymbol_idempotent_size g s :
  addSymbol (addSymbol g s) s = addSymbol g s
  ∧ size (addSymbol g s)
    = (if hasSymbol g (Symbol.id s) then size g else size g + 1)%N.
Proof.
  split.
  - unfold addSymbol, set_symbols. simpl. by rewrite insert_insert_eq.
  - unfold size, container_size, addSymbol, hasSymbol. simpl.
    rewrite map_size_insert. destruct (symbols_ g !! Symbol.id s) eqn:E.
    + by rewrite bool_decide_eq_true_2.
    + rewrite bool_decide_eq_false_2 by by intros [? ?]. lia.
Qed.

(** X4: in every reachable state a listed symbol is the one [getSymbol]
    returns for its id, and [getAllSymbols()] never lists two symbols with
    the same id. *)
Theorem X4_symbols_keyed_by_id g :
  reachable g →
  (∀ s, s ∈ getAllSymbols g →
        hasSymbol g (Symbol.id s) = true ∧ getSymbol g (Symbol.id s) = s)
  ∧ NoDup (Symbol.id <$> getAllSymbols g).
Proof.
  intros Hk%reachable_keyed. split.
  - intros s [k Hs]%elem_of_getAllSymbols. pose proof (Hk k s Hs) as <-.
    unfold hasSymbol, getSymbol. rewrite Hs. split; [|done].
    by apply bool_decide_eq_true.
  - rewrite getAllSymbols_fmap, <- list_fmap_compose.
    assert (Symbol.id ∘ snd <$> map_to_list (symbols_ g)
            = (map_to_list (symbols_ g)).*1) as ->.
    { apply list_fmap_ext. intros i [k s] Hin%list_elem_of_lookup_2.
      apply elem_of_map_to_list in Hin. simpl. by apply Hk. }
    apply NoDup_fst_map_to_list.
Qed.

Lemma X4_symbols_keyed_by_id_witness :
  getSymbol ex_graph "f1::foo::1" = ex_foo
  ∧ NoDup (Symbol.id <$> getAllSymbols ex_graph).
Proof.
  assert (reachable ex_graph) as Hg
    by (exists [OpAddFile ex_file; OpAddReference ex_r1]; reflexivity).
  destruct (X4_symbols_keyed_by_id ex_graph Hg) as [Hget Hnd].
  split; [|exact Hnd].
  apply (Hget ex_foo). apply (bool_decide_unpack _). vm_compute. exact I.
Defined.

(** ** File records *)

Lemma removeReferences_files g s :
  files_ (removeReferences g s) = files_ g
  ∧ dirtyFiles_ (removeReferences g s) = dirtyFiles_ g.
Proof. by rewrite removeReferences_unfold. Qed.

Lemma foldl_removeFile_body_files g l :
  files_ (foldl removeFile_body g l) = files_ g
  ∧ dirtyFiles_ (foldl removeFile_body g l) = dirtyFiles_ g.
Proof.
  revert g. induction l as [|a l IH]; intros g; [done|].
  simpl. destruct (IH (removeFile_body g a)) as [-> ->].
  by rewrite removeFile_body_unfold.
Qed.

Lemma removeFile_files g p : files_ (removeFile g p) = delete p (files_ g).
Proof.
  unfold removeFile. destruct (files_ g !! p) as [f|] eqn:E; simpl.
  - by destruct (foldl_removeFile_body_files g (FileData.symbols f)) as [-> _].
  - by rewrite delete_id.
Qed.

Lemma removeFile_dirtyFiles g p : dirtyFiles_ (removeFile g p) = dirtyFiles_ g.
Proof.
  unfold removeFile. destruct (files_ g !! p) as [f|]; [|done]. simpl.
  by destruct (foldl_removeFile_body_files g (FileData.symbols f)) as [_ ->].
Qed.

Lemma removeFile_symbols_lookup g p k :
  symbols_ (removeFile g p) !! k
  = if decide (k ∈ Symbol.id <$> findSymbolsByFile g p) then None
    else symbols_ g !! k.
Proof.
  unfold removeFile, findSymbolsByFile. destruct (files_ g !! p) as [f|]; simpl.
  - by rewrite foldl_removeFile_body_symbols, lookup_foldl_delete.
  - done.
Qed.

Lemma addFile_symbols g f :
  symbols_ (addFile g f) = symbols_ (addSymbols g (FileData.symbols f)).
Proof. unfold addFile. by rewrite !addSymbols_unfold. Qed.

Lemma addFile_files_eq g f :
  files_ (addFile g f) = <[FileData.path f := f]> (files_ g).
Proof. unfold addFile. by rewrite addSymbols_unfold. Qed.

Lemma hasSymbol_addFile g f k :
  hasSymbol (addFile g f) k
  = hasSymbol g k || bool_decide (k ∈ Symbol.id <$> FileData.symbols f).
Proof.
  rewrite <- hasSymbol_addSymbols. unfold hasSymbol. by rewrite addFile_symbols.
Qed.

Lemma findSymbolsByFile_addFile g f :
  findSymbolsByFile (addFile g f) (FileData.path f) = FileData.symbols f.
Proof. unfold findSymbolsByFile. by rewrite addFile_files_eq, lookup_insert_eq. Qed.

Lemma hasSymbol_removeFile g p k :
  hasSymbol (removeFile g p) k = true
  ↔ hasSymbol g k = true ∧ (k ∉ Symbol.id <$> findSymbolsByFile g p).
Proof.
  rewrite !hasSymbol_true, removeFile_symbols_lookup. case_decide as Hk.
  - split; [by intros [? ?] | by intros [_ ?]].
  - by split; [|intros [? _]].
Qed.

(** X5: [addFile(f)] records [f] under its path and makes every symbol of
    [f] known: [findSymbolsByFile(f.path)] returns the symbols of [f] as
    given, and the records of the other paths are untouched.  For a path
    without a record [findSymbolsByFile] returns the empty vector. *)
Theorem X5_addFile_lookup g f :
  hasFile (addFile g f) (FileData.path f) = true
  ∧ findSymbolsByFile (addFile g f) (FileData.path f) = FileData.symbols f
  ∧ (∀ s, s ∈ FileData.symbols f → hasSymbol (addFile g f) (Symbol.id s) = true)
  ∧ (∀ p, p ≠ FileData.path f →
       hasFile (addFile g f) p = hasFile g p
       ∧ findSymbolsByFile (addFile g f) p = findSymbolsByFile g p)
  ∧ (∀ p, hasFile g p = false → findSymbolsByFile g p = []).
Proof.
  unfold hasFile, findSymbolsByFile. rewrite addFile_files_eq, lookup_insert_eq.
  split; [by apply bool_decide_eq_true|]. split; [done|]. split; [|split].
  - intros s Hs. rewrite hasSymbol_addFile.
    rewrite (bool_decide_eq_true_2 (_ ∈ _)) by by apply list_elem_of_fmap_2.
    apply orb_true_r.
  - intros p Hp. by rewrite lookup_insert_ne.
  - intros p Hp%bool_decide_eq_false. destruct (files_ g !! p) as [f'|]; [|done].
    destruct Hp. by exists f'.
Qed.

(** X6: [removeFile(path)] erases the record of [path] and of no other
    path, and does not touch the dirty set; a second [removeFile(path)]
    changes nothing. *)
Theorem X6_removeFile_files g p :
  hasFile (removeFile g p) p = false
  ∧ findSymbolsByFile (removeFile g p) p = []
  ∧ (∀ q, q ≠ p →
       hasFile (removeFile g p) q = hasFile g q
       ∧ findSymbolsByFile (removeFile g p) q = findSymbolsByFile g q)
  ∧ dirtyFiles_ (removeFile g p) = dirtyFiles_ g
  ∧ removeFile (removeFile g p) p = removeFile g p.
Proof.
  unfold hasFile, findSymbolsByFile. rewrite removeFile_files, lookup_delete_eq.
  split; [by apply bool_decide_eq_false; intros [? ?]|]. split; [done|].
  split; [|split].
  - intros q Hq. by rewrite lookup_delete_ne.
  - apply removeFile_dirtyFiles.
  - unfold removeFile at 1. by rewrite removeFile_files, lookup_delete_eq.
Qed.

(** X7: [removeFile(path)] erases from the symbol table exactly the ids
    listed in the record of [path]: an id is known afterwards iff it was
    known before and is not the id of a symbol of that record. *)
Theorem X7_removeFile_symbols g p k :
  hasSymbol (removeFile g p) k = true
  ↔ hasSymbol g k = true ∧ (k ∉ Symbol.id <$> findSymbolsByFile g p).
Proof. apply hasSymbol_removeFile. Qed.

(** X8: [addFile] over an existing path does not cascade: a symbol that only
    the replaced record listed stays in the symbol table, and the following
    [removeFile] of that path does not erase it either. *)
Theorem X8_addFile_overwrite_orphans g f1 f2 s :
  FileData.path f1 = FileData.path f2 →
  s ∈ FileData.symbols f1 →
  (Symbol.id s ∉ Symbol.id <$> FileData.symbols f2) →
  let g2 := addFile (addFile g f1) f2 in
  hasSymbol g2 (Symbol.id s) = true
  ∧ hasSymbol (removeFile g2 (FileData.path f2)) (Symbol.id s) = true.
Proof.
  intros Hp Hs Hnot g2. subst g2.
  assert (hasSymbol (addFile (addFile g f1) f2) (Symbol.id s) = true) as H2.
  { rewrite !hasSymbol_addFile.
    rewrite (bool_decide_eq_true_2 (_ ∈ Symbol.id <$> FileData.symbols f1))
      by by apply list_elem_of_fmap_2.
    by rewrite orb_true_r. }
  split; [done|]. apply hasSymbol_removeFile. split; [done|].
  by rewrite findSymbolsByFile_addFile.
Qed.

Lemma X8_addFile_overwrite_orphans_witness :
  let g2 := addFile (addFile init ex_file) ex_file_small in
  hasSymbol g2 "f1::bar::5" = true
  ∧ hasSymbol (removeFile g2 "f1") "f1::bar::5" = true.
Proof.
  apply (X8_addFile_overwrite_orphans init ex_file ex_file_small ex_bar).
  - reflexivity.
  - vm_compute. right. left.
  - apply (bool_decide_unpack _). vm_compute. exact I.
Defined.

(** X9: [updateFile(path, file)] replaces: every symbol of [file] is known
    afterwards, an id that only the old record of [path] listed is unknown,
    [findSymbolsByFile(file.path)] returns the symbols of [file], and when
    [file.path] differs from [path] no record is left under [path]. *)
Theorem X9_updateFile_replaces g p f :
  (∀ s, s ∈ FileData.symbols f →
        hasSymbol (updateFile g p f) (Symbol.id s) = true)
  ∧ (∀ k, k ∈ Symbol.id <$> findSymbolsByFile g p →
          (k ∉ Symbol.id <$> FileData.symbols f) →
          hasSymbol (updateFile g p f) k = false)
  ∧ findSymbolsByFile (updateFile g p f) (FileData.path f) = FileData.symbols f
  ∧ (p ≠ FileData.path f → hasFile (updateFile g p f) p = false).
Proof.
  unfold updateFile. split; [|split; [|split]].
  - intros s Hs. rewrite hasSymbol_addFile.
    rewrite (bool_decide_eq_true_2 (_ ∈ _)) by by apply list_elem_of_fmap_2.
    apply orb_true_r.
  - intros k Hold Hnew. rewrite hasSymbol_addFile.
    rewrite (bool_decide_eq_false_2 (_ ∈ _)) by done. rewrite orb_false_r.
    destruct (hasSymbol (removeFile g p) k) eqn:E; [|done].
    apply hasSymbol_removeFile in E as [_ E]. done.
  - apply findSymbolsByFile_addFile.
  - intros Hp. unfold hasFile.
    rewrite addFile_files_eq, lookup_insert_ne, removeFile_files, lookup_delete_eq by done.
    apply bool_decide_eq_false. by intros [? ?].
Qed.

(** ** References that survive a file removal *)

Lemma removeReferences_consistent' g s k r :
  consistent g → references_ g !! k = Some r → Reference.fromSymbolId r ≠ s →
  references_ (removeReferences g s) !! k = Some r.
Proof.
  intros (_ & Hb1 & _) Hr Hne. rewrite removeReferences_unfold. cbv zeta.
  cbn [references_].
  by apply (purge_keeps Reference.fromSymbolId Reference.toSymbolId).
Qed.

Lemma removeFile_body_references_iff g sym k r :
  consistent g →
  references_ (removeFile_body g sym) !! k = Some r
  ↔ references_ g !! k = Some r
    ∧ Reference.fromSymbolId r ≠ Symbol.id sym
    ∧ Reference.toSymbolId r ≠ Symbol.id sym.
Proof.
  intros Hc. split; [apply removeFile_body_references, Hc|].
  intros (Hr & Hfrom & Hto).
  pose proof (removeReferences_consistent g (Symbol.id sym) Hc) as (_ & _ & Hb2).
  apply (removeReferences_consistent' g (Symbol.id sym)) in Hr; [|done..].
  rewrite removeFile_body_unfold. cbv zeta. cbn [references_].
  by apply (purge_keeps Reference.toSymbolId Reference.fromSymbolId).
Qed.

Lemma foldl_removeFile_body_references_iff g l k r :
  consistent g →
  references_ (foldl removeFile_body g l) !! k = Some r
  ↔ references_ g !! k = Some r
    ∧ (Reference.fromSymbolId r ∉ Symbol.id <$> l)
    ∧ (Reference.toSymbolId r ∉ Symbol.id <$> l).
Proof.
  revert g. induction l as [|a l IH]; intros g Hc.
  - simpl. split; [|by intros [? _]].
    intros Hr. split; [done|]. split; apply not_elem_of_nil.
  - simpl foldl. rewrite IH by by apply removeFile_body_consistent.
    rewrite removeFile_body_references_iff by done. rewrite fmap_cons.
    rewrite !not_elem_of_cons. tauto.
Qed.

(** X10: in a state reached without re-adding a live reference id under
    other endpoints, [removeFile(path)] deletes from the reference table
    exactly the references that have a symbol of the record of [path] as
    source or as target; every other reference stays stored unchanged. *)
Theorem X10_removeFile_references g p k r :
  reachable_stable g →
  references_ (removeFile g p) !! k = Some r
  ↔ references_ g !! k = Some r
    ∧ (Reference.fromSymbolId r ∉ Symbol.id <$> findSymbolsByFile g p)
    ∧ (Reference.toSymbolId r ∉ Symbol.id <$> findSymbolsByFile g p).
Proof.
  intros Hc%reachable_stable_consistent.
  unfold removeFile, findSymbolsByFile. destruct (files_ g !! p) as [f|].
  - cbv zeta. cbn [references_ set_files].
    by apply foldl_removeFile_body_references_iff.
  - split; [|by intros [? _]].
    intros Hr. split; [done|]. split; apply not_elem_of_nil.
Qed.

Lemma X10_removeFile_references_witness :
  references_ (removeFile ex_two_files "f1") !! "r2" = Some ex_r2
  ∧ references_ (removeFile ex_two_files "f1") !! "r1" = None.
Proof.
  assert (reachable_stable ex_two_files) as Hg.
  { exists [OpAddFile ex_file; OpAddFile ex_file2;
            OpAddReference ex_r1; OpAddReference ex_r2].
    split; [vm_compute; reflexivity | reflexivity]. }
  split.
  - apply (X10_removeFile_references ex_two_files "f1" "r2" ex_r2 Hg).
    split; [vm_compute; reflexivity|].
    split; apply (bool_decide_unpack _); vm_compute; exact I.
  - apply eq_None_not_Some. intros [r Hr].
    apply (X10_removeFile_references ex_two_files "f1" "r1" r Hg) in Hr
      as (Hr & Hfrom & _).
    assert (references_ ex_two_files !! "r1" = Some ex_r1) as E
      by (vm_compute; reflexivity).
    rewrite E in Hr. injection Hr as <-.
    apply Hfrom. vm_compute. right. left.
Defined.

(** ** Adjacency lists and the queries over them *)

Lemma isSymbolUsed_at_key g s :
  isSymbolUsed g s = negb (bool_decide (at_key (symbolToCallers_ g) s = [])).
Proof. unfold isSymbolUsed, at_key. by destruct (symbolToCallers_ g !! s). Qed.

Lemma length_omap_total {A B} (f : A → option B) (l : list A) :
  (∀ x, x ∈ l → is_Some (f x)) → length (omap f l) = length l.
Proof.
  induction l as [|a l IH]; intros H; [done|]. csimpl.
  destruct (H a) as [b ->]; [by left|]. simpl. f_equal. apply IH.
  intros x Hx. apply H. by right.
Qed.

Lemma omap_ext_in {A B} (f f' : A → option B) (l : list A) :
  (∀ x, x ∈ l → f x = f' x) → omap f l = omap f' l.
Proof.
  induction l as [|a l IH]; intros H; [done|]. csimpl.
  rewrite (H a) by by left. rewrite IH; [done|].
  intros x Hx. apply H. by right.
Qed.

(** X11: in a state reached without re-adding a live reference id under
    other endpoints no adjacency entry dangles: [findCallers] and
    [findCallees] return one reference per entry of the list they walk, and
    [isSymbolUsed(id)] is true exactly when [findCallers(id)] is not empty. *)
Theorem X11_no_dangling_entries g s :
  reachable_stable g →
  length (findCallers g s) = length (at_key (symbolToCallers_ g) s)
  ∧ length (findCallees g s) = length (at_key (symbolToReferences_ g) s)
  ∧ (isSymbolUsed g s = true ↔ findCallers g s ≠ []).
Proof.
  intros (_ & Hb1 & Hb2)%reachable_stable_consistent.
  assert (length (findCallers g s) = length (at_key (symbolToCallers_ g) s)) as Hlen.
  { rewrite findCallers_omap. apply length_omap_total.
    intros k Hk. destruct (Hb2 s k Hk) as (r & -> & _). by exists r. }
  split; [done|]. split.
  - rewrite findCallees_omap. apply length_omap_total.
    intros k Hk. destruct (Hb1 s k Hk) as (r & -> & _). by exists r.
  - rewrite isSymbolUsed_at_key, negb_true_iff, bool_decide_eq_false.
    split; intros H E; apply H.
    + apply nil_length_inv. rewrite <- Hlen, E. done.
    + apply nil_length_inv. rewrite Hlen, E. done.
Qed.

Lemma X11_no_dangling_entries_witness :
  length (findCallers ex_two_files "f2::baz::3") = 1
  ∧ (isSymbolUsed ex_two_files "f2::baz::3" = true
     ↔ findCallers ex_two_files "f2::baz::3" ≠ []).
Proof.
  assert (reachable_stable ex_two_files) as Hg.
  { exists [OpAddFile ex_file; OpAddFile ex_file2;
            OpAddReference ex_r1; OpAddReference ex_r2].
    split; [vm_compute; reflexivity | reflexivity]. }
  destruct (X11_no_dangling_entries ex_two_files "f2::baz::3" Hg) as (Hl & _ & Hu).
  split; [|exact Hu]. rewrite Hl. vm_compute. reflexivity.
Defined.

(** X12: in such a state, adding a reference whose id is not stored appends
    it at the end of [findCallers] of its target and of [findCallees] of its
    source, and changes the result for no other symbol. *)
Theorem X12_addReference_appends g r s :
  reachable_stable g → references_ g !! Reference.id r = None →
  findCallers (addReference g r) s
  = (if decide (Reference.toSymbolId r = s)
     then findCallers g s ++ [r] else findCallers g s)
  ∧ findCallees (addReference g r) s
    = (if decide (Reference.fromSymbolId r = s)
       then findCallees g s ++ [r] else findCallees g s).
Proof.
  intros (_ & Hb1 & Hb2)%reachable_stable_consistent Hfresh.
  rewrite !findCallers_omap, !findCallees_omap. unfold addReference. simpl.
  rewrite !at_key_push_back.
  assert (∀ e (A : adjacency) x, backed e A (references_ g) →
            omap (λ k, <[Reference.id r := r]> (references_ g) !! k) (at_key A x)
            = omap (λ k, references_ g !! k) (at_key A x)) as Hold.
  { intros e A x Hb. apply omap_ext_in. intros k Hk.
    apply lookup_insert_ne. intros <-.
    destruct (Hb x _ Hk) as (? & ? & _). congruence. }
  split; case_decide; rewrite ?omap_app; erewrite Hold by done; try done.
  - simpl. by rewrite lookup_insert_eq.
  - simpl. by rewrite lookup_insert_eq.
Qed.

Lemma X12_addReference_appends_witness :
  findCallers (addReference ex_graph ex_r2) "f2::baz::3" = [ex_r2]
  ∧ findCallees (addReference ex_graph ex_r2) "f1::bar::5" = [ex_r1].
Proof.
  assert (reachable_stable ex_graph) as Hg.
  { exists [OpAddFile ex_file; OpAddReference ex_r1].
    split; [vm_compute; reflexivity | reflexivity]. }
  assert (references_ ex_graph !! Reference.id ex_r2 = None) as Hf
    by (vm_compute; reflexivity).
  split.
  - rewrite (proj1 (X12_addReference_appends ex_graph ex_r2 "f2::baz::3" Hg Hf)).
    vm_compute. reflexivity.
  - rewrite (proj2 (X12_addReference_appends ex_graph ex_r2 "f1::bar::5" Hg Hf)).
    vm_compute. reflexivity.
Defined.

(** X13: in every state [removeReferences(symbolId)] leaves [symbolId]
    without callees, is a no-op when [symbolId] has no outgoing entry, and
    changes nothing when called a second time. *)
Theorem X13_removeReferences_idempotent g s :
  findCallees (removeReferences g s) s = []
  ∧ (symbolToReferences_ g !! s = None → removeReferences g s = g)
  ∧ removeReferences (removeReferences g s) s = removeReferences g s.
Proof.
  assert (symbolToReferences_ (removeReferences g s) !! s = None) as Hnone.
  { rewrite removeReferences_unfold. apply lookup_delete_eq. }
  split; [|split].
  - unfold findCallees. by rewrite Hnone.
  - unfold removeReferences. by intros ->.
  - unfold removeReferences at 1. by rewrite Hnone.
Qed.

Lemma omap_prune_filter (R R' : reftable)
    (P : string → Prop) `{!∀ k, Decision (P k)}
    (Q : Reference.t → Prop) `{!∀ r, Decision (Q r)} (l : list string) :
  (∀ k, k ∈ l → ∃ r, R !! k = Some r ∧ (P k ↔ Q r) ∧ (Q r → R' !! k = Some r)) →
  omap (λ k, R' !! k) (filter P l) = filter Q (omap (λ k, R !! k) l).
Proof.
  induction l as [|k l IH]; intros Hall; [done|].
  destruct (Hall k) as (r & Hr & HPQ & HR'); [by left|].
  assert (omap (λ k, R' !! k) (filter P l) = filter Q (omap (λ k, R !! k) l)) as IH'.
  { apply IH. intros k' Hk'. apply Hall. by right. }
  rewrite filter_cons. csimpl. rewrite Hr. csimpl. rewrite filter_cons.
  destruct (decide (P k)) as [HP|HP].
  - rewrite decide_True by by apply HPQ. csimpl.
    rewrite HR' by by apply HPQ. csimpl. by f_equal.
  - rewrite decide_False by by rewrite <- HPQ. done.
Qed.

(** X14: in a state reached without re-adding a live reference id under
    other endpoints, [removeReferences(symbolId)] takes out of every
    [findCallers] result the references whose source is [symbolId], keeping
    the others in their order, and leaves [findCallees] of every other
    symbol as it was. *)
Theorem X14_removeReferences_queries g s x :
  reachable_stable g →
  findCallers (removeReferences g s) x
  = filter (λ r, Reference.fromSymbolId r ≠ s) (findCallers g x)
  ∧ (x ≠ s → findCallees (removeReferences g s) x = findCallees g x).
Proof.
  intros (Hm & Hb1 & Hb2)%reachable_stable_consistent.
  rewrite !findCallers_omap, !findCallees_omap, removeReferences_unfold.
  cbv zeta. cbn [references_ symbolToCallers_ symbolToReferences_]. split.
  - rewrite prune_adj. apply omap_prune_filter.
    intros k Hk. destruct (Hb2 x k Hk) as (r & Hr & Hto). exists r.
    split; [done|].
    assert (k ∈ at_key (symbolToReferences_ g) s ↔ Reference.fromSymbolId r = s) as Hks.
    { split.
      - intros Hin. destruct (Hb1 s k Hin) as (r' & Hr' & <-). congruence.
      - intros <-. by destruct (Hm k r Hr) as (_ & ? & _). }
    split.
    + rewrite Hks, Hr. simpl. rewrite Hto. split.
      * intros H Hs. by apply H.
      * intros H [Hs _]. by apply H.
    + intros Hne. apply prune_refs_Some. split; [|done]. by rewrite Hks.
  - intros Hx. rewrite at_key_delete, decide_False by done.
    apply omap_ext_in. intros k Hk. rewrite prune_refs.
    rewrite decide_False; [done|]. intros Hin.
    destruct (Hb1 x k Hk) as (r & Hr & Hfrom).
    destruct (Hb1 s k Hin) as (r' & Hr' & Hfrom'). congruence.
Qed.

Lemma X14_removeReferences_queries_witness :
  findCallers (removeReferences ex_two_files "f1::bar::5") "f1::foo::1" = []
  ∧ findCallees (removeReferences ex_two_files "f1::bar::5") "f2::baz::3" = [ex_r2].
Proof.
  assert (reachable_stable ex_two_files) as Hg.
  { exists [OpAddFile ex_file; OpAddFile ex_file2;
            OpAddReference ex_r1; OpAddReference ex_r2].
    split; [vm_compute; reflexivity | reflexivity]. }
  split.
  - rewrite (proj1 (X14_removeReferences_queries ex_two_files
                      "f1::bar::5" "f1::foo::1" Hg)).
    vm_compute. reflexivity.
  - rewrite (proj2 (X14_removeReferences_queries ex_two_files
                      "f1::bar::5" "f2::baz::3" Hg)); [|discriminate].
    vm_compute. reflexivity.
Defined.

(** ** The linear scans *)

Lemma filter_ext_in {A} (P Q : A → Prop)
    `{!∀ x, Decision (P x)} `{!∀ x, Decision (Q x)} (l : list A) :
  (∀ x, x ∈ l → (P x ↔ Q x)) → filter P l = filter Q l.
Proof.
  induction l as [|a l IH]; intros Hall; [done|].
  rewrite !filter_cons, IH by (intros x Hx; apply Hall; by right).
  destruct (decide (P a)) as [HP|HP].
  - rewrite decide_True; [done|]. apply Hall; [by left | done].
  - rewrite decide_False; [done|]. intros HQ. apply HP, Hall; [by left | done].
Qed.

Lemma fmap_filter_snd {A B} (P : B → Prop) `{!∀ x, Decision (P x)}
    (l : list (A * B)) :
  (filter (λ p, P p.2) l).*2 = filter P (l.*2).
Proof.
  induction l as [|a l IH]; [done|].
  rewrite fmap_cons, !filter_cons. simpl.
  destruct (decide (P a.2)); [rewrite fmap_cons|]; by rewrite IH.
Qed.

Lemma scan_filter g (c : string * Symbol.t → bool) (P : Symbol.t → Prop)
    `{!∀ s, Decision (P s)} :
  (∀ k s, symbols_ g !! k = Some s → (c (k, s) = true ↔ P s)) →
  foldl (λ result pair, if c pair then result ++ [pair.2] else result)
        [] (map_to_list (symbols_ g))
  = filter P (getAllSymbols g).
Proof.
  intros Hc. rewrite (foldl_push_if c snd), getAllSymbols_fmap. simpl.
  rewrite <- fmap_filter_snd. f_equal. apply filter_ext_in.
  intros [k s] Hin%elem_of_map_to_list. by apply Hc.
Qed.

(** X15: [findExportedSymbols()] and [findSymbolsByName(name)] return the
    symbols of [getAllSymbols()] that are exported, resp. named [name], in
    the order [getAllSymbols()] lists them. *)
Theorem X15_scans_filter_all g name :
  findExportedSymbols g
  = filter (λ s, Symbol.isExported s = true) (getAllSymbols g)
  ∧ findSymbolsByName g name
    = filter (λ s, Symbol.name s = name) (getAllSymbols g).
Proof.
  split.
  - apply (scan_filter g (λ pair, Symbol.isExported pair.2)). done.
  - apply (scan_filter g (λ pair, bool_decide (Symbol.name pair.2 = name))).
    intros k s _. apply bool_decide_eq_true.
Qed.

(** X16: in every reachable state [findUnusedSymbols()] returns the symbols
    of [getAllSymbols()] for whose id [isSymbolUsed] is false, in the order
    [getAllSymbols()] lists them. *)
Theorem X16_findUnusedSymbols_filter g :
  reachable g →
  findUnusedSymbols g
  = filter (λ s, isSymbolUsed g (Symbol.id s) = false) (getAllSymbols g).
Proof.
  intros Hk%reachable_keyed.
  apply (scan_filter g (λ pair, negb (isSymbolUsed g pair.1))).
  intros k s Hs. simpl. rewrite (Hk k s Hs). apply negb_true_iff.
Qed.

Lemma X16_findUnusedSymbols_filter_witness :
  findUnusedSymbols ex_graph
  = filter (λ s, isSymbolUsed ex_graph (Symbol.id s) = false)
           (getAllSymbols ex_graph).
Proof.
  apply (X16_findUnusedSymbols_filter ex_graph).
  exists [OpAddFile ex_file; OpAddReference ex_r1]. reflexivity.
Defined.

(** ** clear and the statistics *)

(** X17: after [clear()], whatever the state before, the graph is the
    freshly constructed one: no symbol, no file, no caller and no callee is
    found, nothing is used, the dirty set is empty and every figure of
    [getStats()] is zero. *)
Theorem X17_clear_resets g sz k :
  clear g = init
  ∧ size (clear g) = 0%N
  ∧ getAllSymbols (clear g) = []
  ∧ hasSymbol (clear g) k = false
  ∧ getSymbol (clear g) k = Symbol.empty
  ∧ hasFile (clear g) k = false
  ∧ findSymbolsByFile (clear g) k = []
  ∧ findCallers (clear g) k = []
  ∧ findCallees (clear g) k = []
  ∧ isSymbolUsed (clear g) k = false
  ∧ findUnusedSymbols (clear g) = []
  ∧ dirtyFiles_ (clear g) = ∅
  ∧ getStats sz (clear g) = GraphStats.mk 0 0 0 0.
Proof.
  assert (∀ A (k : string), (∅ : gmap string A) !! k = None) as He
    by (intros; apply lookup_empty).
  unfold size, getAllSymbols, hasSymbol, getSymbol, hasFile, findSymbolsByFile,
    findCallers, findCallees, isSymbolUsed, findUnusedSymbols, getStats,
    calculateMemoryUsage, container_size, clear.
  cbn [symbols_ references_ symbolToReferences_ symbolToCallers_ files_ dirtyFiles_].
  rewrite !He, !map_size_empty, !map_to_list_empty.
  repeat split; try done; apply bool_decide_eq_false; by intros [? ?].
Qed.

Lemma size_t_wrap_sum3 a b c :
  size_t_wrap (size_t_wrap (size_t_wrap (0 + size_t_wrap a) + size_t_wrap b)
               + size_t_wrap c)
  = size_t_wrap (a + b + c).
Proof.
  unfold size_t_wrap. rewrite N.add_0_l, N.Div0.mod_mod.
  rewrite <- (N.Div0.add_mod a b). by rewrite <- (N.Div0.add_mod (a + b) c).
Qed.

(** X18: [getStats()] reports the sizes of the three tables, and its memory
    figure is [symbols * sizeof(Symbol) + references * sizeof(Reference)
    + files * sizeof(FileData)] reduced modulo [2^64]; it is that sum itself
    whenever the sum is below [2^64]. *)
Theorem X18_getStats_figures sz g :
  let total := (container_size (symbols_ g) * sizeof_Symbol sz
                + container_size (references_ g) * sizeof_Reference sz
                + container_size (files_ g) * sizeof_FileData sz)%N in
  GraphStats.totalReferences (getStats sz g) = N.of_nat (base.size (references_ g))
  ∧ GraphStats.totalFiles (getStats sz g) = N.of_nat (base.size (files_ g))
  ∧ GraphStats.memoryUsageBytes (getStats sz g) = (total mod 2 ^ 64)%N
  ∧ ((total < 2 ^ 64)%N → GraphStats.memoryUsageBytes (getStats sz g) = total).
Proof.
  intros total.
  assert (GraphStats.memoryUsageBytes (getStats sz g) = size_t_wrap total) as Hm.
  { unfold getStats, calculateMemoryUsage. cbn [GraphStats.memoryUsageBytes].
    cbv zeta. apply size_t_wrap_sum3. }
  split; [done|]. split; [done|]. split; [done|].
  intros Hlt. rewrite Hm. unfold size_t_wrap. by apply N.mod_small.
Qed.

(** X19: [addReference] makes [totalReferences] grow by one exactly when
    the id was not stored, and [removeFile] makes [totalFiles] shrink by one
    exactly when the path had a record. *)
Theorem X19_counts_under_updates sz g r p :
  GraphStats.totalReferences (getStats sz (addReference g r))
  = (match references_ g !! Reference.id r with
     | Some _ => GraphStats.totalReferences (getStats sz g)
     | None => GraphStats.totalReferences (getStats sz g) + 1
     end)%N
  ∧ (GraphStats.totalFiles (getStats sz (removeFile g p))
     + (if hasFile g p then 1 else 0)
     = GraphStats.totalFiles (getStats sz g))%N.
Proof.
  unfold getStats, container_size. cbn [GraphStats.totalReferences GraphStats.totalFiles].
  split.
  - unfold addReference. cbn [references_ set_symbolToCallers set_symbolToReferences set_references].
    rewrite map_size_insert. destruct (references_ g !! Reference.id r); [done|].
    by rewrite Nat2N.inj_succ, N.add_1_r.
  - rewrite removeFile_files, map_size_delete. unfold hasFile.
    destruct (files_ g !! p) as [f|] eqn:E.
    + rewrite bool_decide_eq_true_2 by done.
      assert (base.size (files_ g) ≠ 0) by (apply map_size_ne_0_lookup_2 with p; by rewrite E).
      destruct (base.size (files_ g)) as [|n]; [done|]. simpl Init.Nat.pred. lia.
    + rewrite bool_decide_eq_false_2 by by intros [? ?]. apply N.add_0_r.
Qed.

(** ** What each operation leaves alone *)

Lemma addReferences_frame g l :
  symbols_ (addReferences g l) = symbols_ g
  ∧ files_ (addReferences g l) = files_ g
  ∧ dirtyFiles_ (addReferences g l) = dirtyFiles_ g.
Proof.
  unfold addReferences. revert g. induction l as [|a l IH]; intros g; [done|].
  simpl. by destruct (IH (addReference g a)) as (-> & -> & ->).
Qed.

(** X20: the operations write only their own tables.  The symbol table is
    written by [addSymbol], [addSymbols], [addFile], [updateFile],
    [removeFile] and [clear] alone; the reference table and the two adjacency
    indices by [addReference], [addReferences], [removeReferences],
    [updateFile], [removeFile] and [clear] alone; the file map by [addFile],
    [updateFile], [removeFile] and [clear] alone; the dirty set by
    [markFileDirty], [clearDirtyFiles] and [clear] alone. *)
Theorem X20_operation_frames g op :
  (touches_symbols op = false → symbols_ (step g op) = symbols_ g)
  ∧ (touches_references op = false →
       references_ (step g op) = references_ g
       ∧ symbolToReferences_ (step g op) = symbolToReferences_ g
       ∧ symbolToCallers_ (step g op) = symbolToCallers_ g)
  ∧ (touches_files op = false → files_ (step g op) = files_ g)
  ∧ (touches_dirtyFiles op = false → dirtyFiles_ (step g op) = dirtyFiles_ g).
Proof.
  destruct op; simpl; (split; [|split; [|split]]); try done;
    unfold updateFile, addFile; rewrite ?addSymbols_unfold; try done; intros _;
    first [ apply addReferences_frame
          | apply removeReferences_symbols
          | apply removeReferences_files
          | apply removeFile_dirtyFiles
          | simpl; apply removeFile_dirtyFiles ].
Qed.

(** ** The symbols of a removed file in the adjacency indices *)

Lemma removeFile_body_at_key g sym x :
  (x = Symbol.id sym
   ∨ at_key (symbolToReferences_ g) x = [] →
   at_key (symbolToReferences_ (removeFile_body g sym)) x = [])
  ∧ (x = Symbol.id sym
     ∨ at_key (symbolToCallers_ g) x = [] →
     at_key (symbolToCallers_ (removeFile_body g sym)) x = []).
Proof.
  rewrite removeFile_body_unfold, removeReferences_unfold. cbv zeta.
  cbn [symbolToReferences_ symbolToCallers_ references_].
  repeat (rewrite prune_adj || rewrite at_key_delete). split.
  - intros [->| E].
    + by rewrite decide_True.
    + case_decide; [done|]. by rewrite E.
  - intros [->| E].
    + by rewrite decide_True.
    + case_decide; [done|]. by rewrite E.
Qed.

Lemma foldl_removeFile_body_at_key g l x :
  (x ∈ Symbol.id <$> l) ∨
    (at_key (symbolToReferences_ g) x = [] ∧ at_key (symbolToCallers_ g) x = []) →
  at_key (symbolToReferences_ (foldl removeFile_body g l)) x = []
  ∧ at_key (symbolToCallers_ (foldl removeFile_body g l)) x = [].
Proof.
  revert g. induction l as [|a l IH]; intros g.
  - intros [Hx|H]; [by apply elem_of_nil in Hx | done].
  - simpl foldl. intros H. apply IH.
    destruct (removeFile_body_at_key g a x) as [Ho Hi].
    destruct (decide (x ∈ Symbol.id <$> l)) as [Hin|Hnin]; [by left|]. right.
    destruct H as [[->|Hx]%elem_of_cons | [E1 E2]]; [|done|].
    + split; [apply Ho | apply Hi]; by left.
    + split; [apply Ho | apply Hi]; by right.
Qed.

(** X21: in every state, once [removeFile(path)] has run, a symbol that the
    record of [path] listed has neither callers nor callees left in the
    indices and is reported unused. *)
Theorem X21_removeFile_clears_adjacency g p s :
  s ∈ findSymbolsByFile g p →
  findCallers (removeFile g p) (Symbol.id s) = []
  ∧ findCallees (removeFile g p) (Symbol.id s) = []
  ∧ isSymbolUsed (removeFile g p) (Symbol.id s) = false.
Proof.
  unfold findSymbolsByFile, removeFile. destruct (files_ g !! p) as [f|];
    [|by intros ?%elem_of_nil].
  intros Hs. cbv zeta.
  rewrite findCallers_omap, findCallees_omap, isSymbolUsed_at_key.
  cbn [symbolToReferences_ symbolToCallers_ references_ set_files].
  destruct (foldl_removeFile_body_at_key g (FileData.symbols f) (Symbol.id s))
    as [-> ->]; [left; by apply list_elem_of_fmap_2|].
  done.
Qed.

Lemma X21_removeFile_clears_adjacency_witness :
  let g := removeFile (addFile ex_moved ex_file) "f1" in
  findCallers g "f1::bar::5" = []
  ∧ findCallees g "f1::bar::5" = []
  ∧ isSymbolUsed g "f1::bar::5" = false.
Proof.
  apply (X21_removeFile_clears_adjacency (addFile ex_moved ex_file) "f1" ex_bar).
  vm_compute. right. left.
Defined.
